(** * goset: a kind-tagged set over Go's [map[interface{}]struct{}]

    Shallow embedding of [set.go].  A [*Set] is a location in a heap of set
    objects; every method is a computation over that heap which either returns
    (a result and the new heap) or panics.  A panic ends the run: recovering
    from one is not represented.  Nor is the [sync.RWMutex] field: the
    development is about sequential executions.  [String] formats the
    elements with package [fmt] and is left out. *)

From stdpp Require Import gmap gmultiset strings list.

Set Warnings "-clear-no-such-hyp".

(** ** Values of type [interface{}] *)

(** [reflect.Kind]: the constants of package [reflect], in their order. *)
Module reflect.

Inductive Kind : Set :=
| Invalid | Bool | Int | Int8 | Int16 | Int32 | Int64
| Uint | Uint8 | Uint16 | Uint32 | Uint64 | Uintptr
| Float32 | Float64 | Complex64 | Complex128
| Array | Chan | Func | Interface | Map | Pointer | Slice | String
| Struct | UnsafePointer.

#[global] Instance Kind_eq_dec : EqDecision Kind.
Proof. solve_decision. Defined.

End reflect.

(** A [float64] as a map key sees it.  [F64NaN] stands for every NaN: no NaN
    equals anything, itself included.  The numbers are compared with [==], so
    [+0] and [-0], which are equal, are the one [F64Zero].  A finite number
    other than zero is, in one way only, an odd number times a power of two
    with a sign: [F64Finite neg half exp] is [(2 * half + 1) * 2 ^ exp],
    negated when [neg].  So two values of this type are the same exactly when
    the two floats are equal and are numbers. *)
Inductive float64 : Set :=
| F64NaN
| F64Zero
| F64Inf (neg : bool)
| F64Finite (neg : bool) (half : N) (exp : Z).

#[global] Instance float64_eq_dec : EqDecision float64.
Proof. solve_decision. Defined.

(** A fragment of the dynamic values an [interface{}] can hold: the nil
    interface, booleans, [int]s, [float64]s, [complex128]s, strings, pointers,
    values of a named struct type (the name is the concrete type), and slices.
    Two values built the same way have the same dynamic type and the same
    contents. *)
#[warnings="-register-all"]
Inductive value : Type :=
| VNil
| VBool (b : bool)
| VInt (n : Z)
| VFloat64 (f : float64)
| VComplex128 (re im : float64)
| VString (str : string)
| VPtr (addr : nat)
| VStruct (tname : string) (fields : list value)
| VSlice (elems : list value).

(** [reflect.TypeOf(item).Kind()].  [reflect.TypeOf(nil)] is the nil [Type],
    on which [Kind()] panics: [None]. *)
Definition KindOf (item : value) : option reflect.Kind :=
  match item with
  | VNil => None
  | VBool _ => Some reflect.Bool
  | VInt _ => Some reflect.Int
  | VFloat64 _ => Some reflect.Float64
  | VComplex128 _ _ => Some reflect.Complex128
  | VString _ => Some reflect.String
  | VPtr _ => Some reflect.Pointer
  | VStruct _ _ => Some reflect.Struct
  | VSlice _ => Some reflect.Slice
  end.

(** Whether the runtime can hash an interface value used as a map key.  A
    slice cannot be hashed, nor can a struct one of whose fields cannot. *)
Fixpoint hashable (item : value) : bool :=
  match item with
  | VSlice _ => false
  | VStruct _ fields => forallb hashable fields
  | _ => true
  end.

(** Whether [item == item].  A NaN is not equal to itself, nor is a complex
    number with a NaN part, nor a struct with such a field.  For two hashable
    values [x == y] holds when they are built the same way and equal
    themselves. *)
Fixpoint reflexive (item : value) : bool :=
  match item with
  | VFloat64 f => bool_decide (f ≠ F64NaN)
  | VComplex128 re im => bool_decide (re ≠ F64NaN) && bool_decide (im ≠ F64NaN)
  | VStruct _ fields => forallb reflexive fields
  | _ => true
  end.

Definition float64_enc (f : float64) : bool * N * Z + bool + bool :=
  match f with
  | F64NaN => inr true
  | F64Zero => inr false
  | F64Inf neg => inl (inr neg)
  | F64Finite neg half exp => inl (inl (neg, half, exp))
  end.

Definition float64_dec (c : bool * N * Z + bool + bool) : float64 :=
  match c with
  | inr true => F64NaN
  | inr false => F64Zero
  | inl (inr neg) => F64Inf neg
  | inl (inl (neg, half, exp)) => F64Finite neg half exp
  end.

Lemma float64_dec_enc f : float64_dec (float64_enc f) = f.
Proof. by destruct f. Qed.

#[global] Instance float64_countable : Countable float64 :=
  inj_countable' float64_enc float64_dec float64_dec_enc.

Fixpoint value_enc (v : value)
    : gen_tree (bool + Z + string + nat + float64) :=
  match v with
  | VNil => GenNode 0 []
  | VBool b => GenLeaf (inl (inl (inl (inl b))))
  | VInt n => GenLeaf (inl (inl (inl (inr n))))
  | VString s => GenLeaf (inl (inl (inr s)))
  | VPtr a => GenLeaf (inl (inr a))
  | VFloat64 f => GenLeaf (inr f)
  | VComplex128 re im => GenNode 3 [GenLeaf (inr re); GenLeaf (inr im)]
  | VStruct t fs => GenNode 1 (GenLeaf (inl (inl (inr t))) :: map value_enc fs)
  | VSlice es => GenNode 2 (map value_enc es)
  end.

Fixpoint value_dec (t : gen_tree (bool + Z + string + nat + float64)) : value :=
  match t with
  | GenLeaf (inl (inl (inl (inl b)))) => VBool b
  | GenLeaf (inl (inl (inl (inr n)))) => VInt n
  | GenLeaf (inl (inl (inr s))) => VString s
  | GenLeaf (inl (inr a)) => VPtr a
  | GenLeaf (inr f) => VFloat64 f
  | GenNode 3 [GenLeaf (inr re); GenLeaf (inr im)] => VComplex128 re im
  | GenNode 1 (GenLeaf (inl (inl (inr t))) :: fs) => VStruct t (map value_dec fs)
  | GenNode 2 es => VSlice (map value_dec es)
  | _ => VNil
  end.

Fixpoint value_eqb (v w : value) {struct v} : bool :=
  let fix all2 (l k : list value) {struct l} : bool :=
    match l, k with
    | [], [] => true
    | x :: l', y :: k' => value_eqb x y && all2 l' k'
    | _, _ => false
    end in
  match v, w with
  | VNil, VNil => true
  | VBool a, VBool b => bool_decide (a = b)
  | VInt a, VInt b => bool_decide (a = b)
  | VFloat64 a, VFloat64 b => bool_decide (a = b)
  | VComplex128 a c, VComplex128 b d => bool_decide (a = b) && bool_decide (c = d)
  | VString a, VString b => bool_decide (a = b)
  | VPtr a, VPtr b => bool_decide (a = b)
  | VStruct s fs, VStruct t gs => bool_decide (s = t) && all2 fs gs
  | VSlice es, VSlice gs => all2 es gs
  | _, _ => false
  end.

(** The induction principle that reaches the values nested in the lists. *)
Lemma value_ind' (P : value → Prop) :
  P VNil → (∀ b, P (VBool b)) → (∀ n, P (VInt n)) →
  (∀ f, P (VFloat64 f)) → (∀ re im, P (VComplex128 re im)) →
  (∀ s, P (VString s)) → (∀ a, P (VPtr a)) →
  (∀ t fs, Forall P fs → P (VStruct t fs)) →
  (∀ es, Forall P es → P (VSlice es)) →
  ∀ v, P v.
Proof.
  intros Hnil Hbool Hint Hfl Hcx Hstr Hptr Hstruct Hslice.
  fix IH 1. intros [| |n| | | | |t fs|es];
    [exact Hnil|apply Hbool|apply Hint|apply Hfl|apply Hcx|apply Hstr|apply Hptr| |].
  - apply Hstruct. induction fs as [|f fs IHfs]; constructor; [apply IH|exact IHfs].
  - apply Hslice. induction es as [|e es IHes]; constructor; [apply IH|exact IHes].
Qed.

Lemma value_dec_enc v : value_dec (value_enc v) = v.
Proof.
  induction v as [| | | | | | |t fs IH|es IH] using value_ind'; simpl; try done.
  - f_equal. induction IH as [|f fs Hf _ IHfs]; simpl; [done|by rewrite Hf, IHfs].
  - f_equal. induction IH as [|e es He _ IHes]; simpl; [done|by rewrite He, IHes].
Qed.

Lemma value_eqb_spec v : ∀ w, value_eqb v w = true ↔ v = w.
Proof.
  induction v as [| | | | | | |t fs IH|es IH] using value_ind';
    intros [| | | | | | |t' gs|gs];
    simpl; try (split; [done|congruence]); try done;
    try (rewrite bool_decide_eq_true; split; congruence).
  - rewrite andb_true_iff, !bool_decide_eq_true. split; [intros [-> ->]|intros [= -> ->]]; done.
  - rewrite andb_true_iff, bool_decide_eq_true.
    revert gs. induction IH as [|f fs Hf _ IHfs]; intros [|g gs].
    + split; [by intros [-> _]|by intros [= ->]].
    + split; [by intros [_ ?]|done].
    + split; [by intros [_ ?]|done].
    + rewrite andb_true_iff, Hf. specialize (IHfs gs).
      split; [intros (-> & -> & H)|intros [= -> -> ->]].
      * destruct IHfs as [IHfs _]. specialize (IHfs (conj eq_refl H)). congruence.
      * destruct IHfs as [_ IHfs]. specialize (IHfs eq_refl). tauto.
  - revert gs. induction IH as [|e es He _ IHes]; intros [|g gs].
    + done.
    + split; done.
    + split; done.
    + rewrite andb_true_iff, He. specialize (IHes gs).
      split; [intros (-> & H)|intros [= -> ->]].
      * apply IHes in H. congruence.
      * split; [done|]. by apply IHes.
Qed.

#[global] Instance value_eq_dec : EqDecision value.
Proof.
  intros v w. destruct (value_eqb v w) eqn:E.
  - left. by apply value_eqb_spec.
  - right. intros H. apply value_eqb_spec in H. congruence.
Defined.

#[global] Instance value_countable : Countable value :=
  inj_countable' value_enc value_dec value_dec_enc.

(** ** Go's [map[interface{}]struct{}] *)

(** A map holds a key that equals itself at most once.  A key that does not
    equal itself is never found again: every assignment of one adds an entry,
    and no lookup and no delete reaches it.  [keys] are the entries that can
    be found; [loose] are the others, each as many times as it was
    assigned. *)
Record gomap : Type := mkMap { keys : gset value; loose : gmultiset value }.

#[global] Instance gomap_eq_dec : EqDecision gomap.
Proof. solve_decision. Defined.

(** [make(map[interface{}]struct{})] *)
Definition map_make : gomap := mkMap ∅ ∅.

(** [m[k] = struct{}{}], for a key that can be hashed. *)
Definition map_assign (M : gomap) (k : value) : gomap :=
  if reflexive k then mkMap ({[k]} ∪ keys M) (loose M)
  else mkMap (keys M) ({[+ k +]} ⊎ loose M).

(** [delete(m, k)], for a key that can be hashed. *)
Definition map_delete (M : gomap) (k : value) : gomap :=
  if reflexive k then mkMap (keys M ∖ {[k]}) (loose M) else M.

(** [_, ok := m[k]], for a key that can be hashed. *)
Definition map_access (M : gomap) (k : value) : bool :=
  reflexive k && bool_decide (k ∈ keys M).

(** [len(m)] *)
Definition map_len (M : gomap) : nat := size (keys M) + size (loose M).

(** The entries of the map, in one order. *)
Definition map_entries (M : gomap) : list value :=
  elements (keys M) ++ elements (loose M).

(** ** Set objects, pointers and the heap *)

(** [type Set struct { m map[interface{}]struct{}; l sync.RWMutex; kind reflect.Kind }] *)
Record Set_ : Type := mkSet { m : gomap; kind : reflect.Kind }.

(** A [*Set]: [nil], or the address of a set object. *)
Inductive ptr : Set := nil | loc (a : nat).

#[global] Instance ptr_eq_dec : EqDecision ptr.
Proof. solve_decision. Defined.

Abbreviation heap := (list Set_).

(** The two [fmt.Errorf] values of the package, with the kinds they print. *)
Inductive error : Set :=
| KindMismatch (sk tk : reflect.Kind)    (* typematch: mismatched sets; sk != tk *)
| TypeViolation (k sk : reflect.Kind).   (* typecheck: value of kind k into a set of kind sk *)

(** ** Computations: heap passing, with panics *)

Inductive outcome (A : Type) : Type :=
| Ok (a : A)
| Panic.
Arguments Ok {A} a.
Arguments Panic {A}.

Definition M (A : Type) : Type := heap → outcome (A * heap).

Definition ret {A} (a : A) : M A := λ h, Ok (a, h).

Definition bind {A B} (c : M A) (k : A → M B) : M B := λ h,
  match c h with
  | Ok (a, h') => k a h'
  | Panic => Panic
  end.

Declare Scope go_scope.
Delimit Scope go_scope with go.
Notation "x <- c ;; k" := (bind c (λ x, k))
  (at level 100, c at next level, right associativity) : go_scope.
Notation "c ;;; k" := (bind c (λ _, k))
  (at level 100, right associativity) : go_scope.
Open Scope go_scope.

Definition panic {A} : M A := λ _, Panic.

(** Reading and writing through a [*Set]; a nil (or dangling) pointer panics. *)
Definition deref (s : ptr) : M Set_ := λ h,
  match s with
  | nil => Panic
  | loc a => match h !! a with Some o => Ok (o, h) | None => Panic end
  end.

Definition store (s : ptr) (o : Set_) : M () := λ h,
  match s with
  | nil => Panic
  | loc a => match h !! a with Some _ => Ok (tt, <[a:=o]> h) | None => Panic end
  end.

(** [&Set{...}]: a fresh object at the end of the heap. *)
Definition alloc (o : Set_) : M ptr := λ h, Ok (loc (length h), h ++ [o]).

(** [for _, item := range items { body }], for a body that always falls
    through to the next iteration. *)
Fixpoint for_range {A} (items : list A) (body : A → M ()) : M () :=
  match items with
  | [] => ret tt
  | item :: rest => body item ;;; for_range rest body
  end.

(** [for _, item := range items { if !test(item) { return false } }; return true]. *)
Fixpoint all_range {A} (items : list A) (test : A → M bool) : M bool :=
  match items with
  | [] => ret true
  | item :: rest =>
      ok <- test item ;;
      if ok then all_range rest test else ret false
  end.

(** The three map operations on [s.m].  Hashing a key that cannot be hashed
    is a run-time panic, whatever the map holds. *)
Definition mapassign (s : ptr) (item : value) : M () :=
  o <- deref s ;;
  if hashable item then store s (mkSet (map_assign (m o) item) (kind o))
  else panic.

Definition mapdelete (s : ptr) (item : value) : M () :=
  o <- deref s ;;
  if hashable item then store s (mkSet (map_delete (m o) item) (kind o))
  else panic.

Definition mapaccess (s : ptr) (item : value) : M bool :=
  o <- deref s ;;
  if hashable item then ret (map_access (m o) item) else panic.

(** ** The methods that do not iterate over a map *)

(** [func (s *Set) typematch(t *Set) error] *)
Definition typematch (s t : ptr) : M (option error) :=
  so <- deref s ;;
  to <- deref t ;;
  if decide (kind so ≠ kind to)
  then ret (Some (KindMismatch (kind so) (kind to)))
  else ret None.

(** [func (s *Set) typecheck(items ...interface{}) error] *)
Fixpoint typecheck (s : ptr) (items : list value) : M (option error) :=
  match items with
  | [] => ret None
  | item :: rest =>
      match KindOf item with
      | None => panic
      | Some k =>
          so <- deref s ;;
          if decide (k ≠ kind so)
          then ret (Some (TypeViolation k (kind so)))
          else typecheck s rest
      end
  end.

(** [func (s *Set) Add(items ...interface{}) error].  The call
    [s.typecheck(items)] passes the slice [items] as the one variadic
    argument: [typecheck] ranges over a one-element list holding that slice. *)
Definition Add (s : ptr) (items : list value) : M (option error) :=
  if decide (length items = 0) then ret None else
  err <- typecheck s [VSlice items] ;;
  match err with
  | Some e => ret (Some e)
  | None => for_range items (mapassign s) ;;; ret None
  end.

(** [func (s *Set) Remove(items ...interface{}) error] *)
Definition Remove (s : ptr) (items : list value) : M (option error) :=
  if decide (length items = 0) then ret None else
  err <- typecheck s [VSlice items] ;;
  match err with
  | Some e => ret (Some e)
  | None => for_range items (mapdelete s) ;;; ret None
  end.

(** [func (s *Set) Has(items ...interface{}) (bool, error)] *)
Definition Has (s : ptr) (items : list value) : M (bool * option error) :=
  if decide (length items = 0) then ret (false, None) else
  err <- typecheck s [VSlice items] ;;
  match err with
  | Some e => ret (false, Some e)
  | None => ok <- all_range items (mapaccess s) ;; ret (ok, None)
  end.

(** [func New(kind reflect.Kind, items ...interface{}) *Set]: the error of
    [s.Add(items...)] is dropped. *)
Definition New (kind : reflect.Kind) (items : list value) : M ptr :=
  s <- alloc (mkSet map_make kind) ;;
  Add s items ;;;
  ret s.

(** [func (s *Set) Size() int] *)
Definition Size (s : ptr) : M nat :=
  o <- deref s ;;
  ret (map_len (m o)).

(** [func (s *Set) Clear()] *)
Definition Clear (s : ptr) : M () :=
  o <- deref s ;;
  store s (mkSet map_make (kind o)).

(** [func (s *Set) IsEmpty() bool] *)
Definition IsEmpty (s : ptr) : M bool :=
  n <- Size s ;;
  ret (bool_decide (n = 0)).

(** ** Two calls on a set just constructed with kind [K] *)

Definition Add_then_Has (K : reflect.Kind) (items : list value) (x : value)
    : M (option error * (bool * option error)) :=
  s <- New K items ;;
  e <- Add s [x] ;;
  r <- Has s [x] ;;
  ret (e, r).

Definition Remove_then_Has (K : reflect.Kind) (items : list value) (x : value)
    : M (option error * (bool * option error)) :=
  s <- New K items ;;
  e <- Remove s [x] ;;
  r <- Has s [x] ;;
  ret (e, r).


(** ** The type assertions of the typed views *)

(** [v, ok := item.(string)]: the assertion holds when the dynamic type is
    [string]. *)
Definition as_string (item : value) : option string :=
  match item with
  | VString v => Some v
  | _ => None
  end.

(** [v, ok := item.(int)] *)
Definition as_int (item : value) : option Z :=
  match item with
  | VInt v => Some v
  | _ => None
  end.

(** [for _, item := range l { v, ok := item.(T); if !ok { continue };
    slice = append(slice, v) }], from a slice that starts empty. *)
Definition collect {T} (assert : value → option T) (l : list value) : list T :=
  fold_left
    (λ slice item,
       match assert item with
       | Some v => slice ++ [v]
       | None => slice
       end)
    l [].

(** ** The methods that iterate over a map *)

Section goset.

(** Go leaves the order of [for item := range s.m] unspecified.  [order]
    stands for whichever enumeration of the entries the runtime produces:
    each key that can be found once, and each loose entry as often as the map
    holds it. *)
Variable order : gomap → list value.
Hypothesis order_perm : ∀ M, order M ≡ₚ map_entries M.

(** [func (s *Set) List() []interface{}] *)
Definition List (s : ptr) : M (list value) :=
  o <- deref s ;;
  ret (order (m o)).

(** [func (s *Set) Copy() *Set] *)
Definition Copy (s : ptr) : M ptr :=
  o <- deref s ;;
  l <- List s ;;
  New (kind o) l.

(** [func (s *Set) Union(t *Set) ( *Set, error )] *)
Definition Union (s t : ptr) : M (ptr * option error) :=
  err <- typematch s t ;;
  match err with
  | Some e => ret (nil, Some e)
  | None =>
      o <- deref s ;;
      tl <- List t ;;
      u <- New (kind o) tl ;;
      sl <- List s ;;
      for_range sl (λ item, Add u [item] ;;; ret tt) ;;;
      ret (u, None)
  end.

(** [func (s *Set) IsEqual(t *Set) (bool, error)] *)
Definition IsEqual (s t : ptr) : M (bool * option error) :=
  err <- typematch s t ;;
  match err with
  | Some e => ret (false, Some e)
  | None =>
      ns <- Size s ;;
      nt <- Size t ;;
      if decide (ns ≠ nt) then ret (false, None) else
      r <- Union s t ;;
      ns' <- Size s ;;
      nu <- Size r.1 ;;
      if decide (ns' ≠ nu) then ret (false, None) else
      ret (true, None)
  end.

(** [func (s *Set) IsSubset(t *Set) (bool, error)] *)
Definition IsSubset (s t : ptr) : M (bool * option error) :=
  err <- typematch s t ;;
  match err with
  | Some e => ret (false, Some e)
  | None =>
      tl <- List t ;;
      ok <- all_range tl (λ item, r <- Has s [item] ;; ret r.1) ;;
      ret (ok, None)
  end.

(** [func (s *Set) IsSuperset(t *Set) (bool, error)] *)
Definition IsSuperset (s t : ptr) : M (bool * option error) :=
  IsSubset t s.

(** [func (s *Set) Merge(t *Set) error] *)
Definition Merge (s t : ptr) : M (option error) :=
  err <- typematch s t ;;
  match err with
  | Some e => ret (Some e)
  | None =>
      tl <- List t ;;
      for_range tl (λ item, Add s [item] ;;; ret tt) ;;;
      ret None
  end.

(** [func (s *Set) Separate(t *Set) error] *)
Definition Separate (s t : ptr) : M (option error) :=
  err <- typematch s t ;;
  match err with
  | Some e => ret (Some e)
  | None =>
      tl <- List t ;;
      for_range tl (λ item, Remove s [item] ;;; ret tt) ;;;
      ret None
  end.

(** [func (s *Set) Intersection(t *Set) ( *Set, error )] *)
Definition Intersection (s t : ptr) : M (ptr * option error) :=
  err <- typematch s t ;;
  match err with
  | Some e => ret (nil, Some e)
  | None =>
      o <- deref s ;;
      u <- New (kind o) [] ;;
      sl <- List s ;;
      for_range sl (λ item,
        r <- Has t [item] ;;
        if r.1 then Add u [item] ;;; ret tt else ret tt) ;;;
      tl <- List t ;;
      for_range tl (λ item,
        r <- Has s [item] ;;
        if r.1 then Add u [item] ;;; ret tt else ret tt) ;;;
      ret (u, None)
  end.

(** [func (s *Set) Difference(t *Set) ( *Set, error )] *)
Definition Difference (s t : ptr) : M (ptr * option error) :=
  err <- typematch s t ;;
  match err with
  | Some e => ret (nil, Some e)
  | None =>
      o <- deref s ;;
      u <- New (kind o) [] ;;
      sl <- List s ;;
      for_range sl (λ item,
        r <- Has t [item] ;;
        if negb r.1 then Add u [item] ;;; ret tt else ret tt) ;;;
      ret (u, None)
  end.

(** [func (s *Set) SymmetricDifference(t *Set) ( *Set, error )] *)
Definition SymmetricDifference (s t : ptr) : M (ptr * option error) :=
  err <- typematch s t ;;
  match err with
  | Some e => ret (nil, Some e)
  | None =>
      ru <- Difference s t ;;
      rv <- Difference t s ;;
      rres <- Union ru.1 rv.1 ;;
      ret (rres.1, None)
  end.

(** [func (s *Set) StringSlice() []string] *)
Definition StringSlice (s : ptr) : M (list string) :=
  l <- List s ;;
  ret (collect as_string l).

(** [func (s *Set) IntSlice() []int] *)
Definition IntSlice (s : ptr) : M (list Z) :=
  l <- List s ;;
  ret (collect as_int l).

(** The specification's wording of the symmetric difference: the union of
    [A − B] and [B − A]. *)
Definition SymmetricDifference_spec (s t : ptr) : M (ptr * option error) :=
  ru <- Difference s t ;;
  rv <- Difference t s ;;
  Union ru.1 rv.1.

(** A write through a pointer, as a client can issue it. *)
Inductive mutation : Type :=
| MutAdd (items : list value)
| MutRemove (items : list value)
| MutClear
| MutMerge (t : ptr)
| MutSeparate (t : ptr).

Definition mutate (s : ptr) (mu : mutation) : M () :=
  match mu with
  | MutAdd items => Add s items ;;; ret tt
  | MutRemove items => Remove s items ;;; ret tt
  | MutClear => Clear s
  | MutMerge t => Merge s t ;;; ret tt
  | MutSeparate t => Separate s t ;;; ret tt
  end.


(** ** Client programs *)

(** One call of the package's exported API. *)
Inductive call : Type :=
| CallNew (k : reflect.Kind) (items : list value)
| CallAdd (s : ptr) (items : list value)
| CallRemove (s : ptr) (items : list value)
| CallHas (s : ptr) (items : list value)
| CallSize (s : ptr)
| CallClear (s : ptr)
| CallIsEmpty (s : ptr)
| CallIsEqual (s t : ptr)
| CallIsSubset (s t : ptr)
| CallIsSuperset (s t : ptr)
| CallList (s : ptr)
| CallCopy (s : ptr)
| CallUnion (s t : ptr)
| CallMerge (s t : ptr)
| CallSeparate (s t : ptr)
| CallIntersection (s t : ptr)
| CallDifference (s t : ptr)
| CallSymmetricDifference (s t : ptr).

Definition exec (c : call) : M () :=
  match c with
  | CallNew k items => New k items ;;; ret tt
  | CallAdd s items => Add s items ;;; ret tt
  | CallRemove s items => Remove s items ;;; ret tt
  | CallHas s items => Has s items ;;; ret tt
  | CallSize s => Size s ;;; ret tt
  | CallClear s => Clear s
  | CallIsEmpty s => IsEmpty s ;;; ret tt
  | CallIsEqual s t => IsEqual s t ;;; ret tt
  | CallIsSubset s t => IsSubset s t ;;; ret tt
  | CallIsSuperset s t => IsSuperset s t ;;; ret tt
  | CallList s => List s ;;; ret tt
  | CallCopy s => Copy s ;;; ret tt
  | CallUnion s t => Union s t ;;; ret tt
  | CallMerge s t => Merge s t ;;; ret tt
  | CallSeparate s t => Separate s t ;;; ret tt
  | CallIntersection s t => Intersection s t ;;; ret tt
  | CallDifference s t => Difference s t ;;; ret tt
  | CallSymmetricDifference s t => SymmetricDifference s t ;;; ret tt
  end.

(** The heaps a client can build.  The fields of [Set] are unexported: a set
    object comes from [New] and changes only through the methods.  (The zero
    [Set] a client can declare has no key and the zero kind, [Invalid]; no
    method tells it from [New(reflect.Invalid)].) *)
Inductive reachable : heap → Prop :=
| reachable_init : reachable []
| reachable_call c h h' : reachable h → exec c h = Ok (tt, h') → reachable h'.


(** ** Programs of a few calls *)

(** [u, _ := s.Union(t); v, _ := t.Union(s); u.IsEqual(v)] *)
Definition Union_both_ways (s t : ptr) : M (bool * option error) :=
  u <- Union s t ;;
  v <- Union t s ;;
  IsEqual u.1 v.1.

(** [d, _ := s.Difference(s); d.IsEmpty()] *)
Definition Difference_of_self (s : ptr) : M bool :=
  d <- Difference s s ;;
  IsEmpty d.1.

(** [u, _ := s.Union(t); i, _ := s.Intersection(u); i.IsEqual(s)] *)
Definition Intersection_with_Union (s t : ptr) : M (bool * option error) :=
  u <- Union s t ;;
  i <- Intersection s u.1 ;;
  IsEqual i.1 s.

(** [u, _ := s.Union(t); i, _ := s.Intersection(t)], then the four sizes:
    of [u], of [i], of [s] and of [t]. *)
Definition sizes_of_Union_and_Intersection (s t : ptr)
    : M (nat * nat * nat * nat) :=
  u <- Union s t ;;
  i <- Intersection s t ;;
  nu <- Size u.1 ;;
  ni <- Size i.1 ;;
  ns <- Size s ;;
  nt <- Size t ;;
  ret (nu, ni, ns, nt).

(** [s.Merge(t); s.IsSubset(t)]: whether, after the merge, every element of
    [t] is in [s]. *)
Definition Merge_then_IsSubset (s t : ptr) : M (bool * option error) :=
  Merge s t ;;;
  IsSubset s t.

(** [s.Separate(t); i, _ := s.Intersection(t); i.IsEmpty()] *)
Definition Separate_then_Intersection (s t : ptr) : M bool :=
  Separate s t ;;;
  i <- Intersection s t ;;
  IsEmpty i.1.

End goset.


(** ** State invariant *)

(** What is an entry of the map: a key that can be found, or a loose one. *)
Definition entry (x : value) (M : gomap) : Prop := x ∈ keys M ∨ x ∈ loose M.

(** The two parts of a map hold what they are for: the keys that can be
    found equal themselves, the loose entries do not. *)
Definition map_wf (M : gomap) : Prop :=
  (∀ x, x ∈ keys M → reflexive x = true) ∧
  (∀ x, x ∈ loose M → reflexive x = false).

(** Every entry of the map equals itself: the map holds no NaN, and no
    complex number or struct with one inside. *)
Definition selfequal (M : gomap) : Prop :=
  Forall (λ x, reflexive x = true) (map_entries M).

#[global] Instance selfequal_dec M : Decision (selfequal M).
Proof. unfold selfequal. apply _. Defined.

(** What holds of every set object a client can build: its map is a map, its
    entries were all hashed on insertion, and an insertion only ever got past
    the call [s.typecheck(items)] in a set of kind [Slice]. *)
Definition set_inv (o : Set_) : Prop :=
  map_wf (m o) ∧
  (∀ x, entry x (m o) → hashable x = true) ∧
  (kind o ≠ reflect.Slice → m o = map_make).

Definition heap_inv (h : heap) : Prop := Forall set_inv h.

(** The value a computation returns, if it returns. *)
Definition result {A} (r : outcome (A * heap)) : option A :=
  match r with
  | Ok (a, _) => Some a
  | Panic => None
  end.

(** A computation respects a relation on heaps when every run that returns
    relates the heap it started from to the heap it leaves. *)
Definition respects (R : relation heap) {A} (p : M A) : Prop :=
  ∀ h r h', p h = Ok (r, h') → R h h'.

(** The invariant is kept. *)
Definition keeps_inv : relation heap := λ h h', heap_inv h → heap_inv h'.

(** Every object other than the one at [c] is left as it was. *)
Definition frame (c : nat) : relation heap :=
  λ h h', ∀ a o, a ≠ c → h !! a = Some o → h' !! a = Some o.

(** Every object stays where it is, with the kind it has. *)
Definition keeps_kind : relation heap :=
  λ h h', ∀ a o, h !! a = Some o → ∃ o', h' !! a = Some o' ∧ kind o' = kind o.

(** Nothing is allocated, and nothing but the object at [c] is written. *)
Definition only_at (c : nat) : relation heap :=
  λ h h', length h' = length h ∧ ∀ a, a ≠ c → h' !! a = h !! a.

(** The keys of a list of items that can be found again once assigned, and
    the entries its other items leave. *)
Definition found (l : list value) : gset value :=
  list_to_set (filter (λ x, reflexive x = true) l).

Definition unfound (l : list value) : gmultiset value :=
  list_to_set_disj (filter (λ x, reflexive x = false) l).

(** ** The map operations, on lists of keys *)

Lemma gomap_eta M : mkMap (keys M) (loose M) = M.
Proof. by destruct M. Qed.

Lemma gomap_eq M N : keys M = keys N → loose M = loose N → M = N.
Proof. destruct M, N; simpl. by intros -> ->. Qed.

Lemma found_nil : found [] = ∅.
Proof. done. Qed.

Lemma unfound_nil : unfound [] = ∅.
Proof. done. Qed.

Lemma found_cons x l :
  found (x :: l) = if reflexive x then {[x]} ∪ found l else found l.
Proof.
  unfold found. rewrite filter_cons. by destruct (reflexive x).
Qed.

Lemma unfound_cons x l :
  unfound (x :: l) = if reflexive x then unfound l else {[+ x +]} ⊎ unfound l.
Proof.
  unfold unfound. rewrite filter_cons. by destruct (reflexive x).
Qed.

Lemma elem_of_found x l : x ∈ found l ↔ reflexive x = true ∧ x ∈ l.
Proof. unfold found. by rewrite elem_of_list_to_set, list_elem_of_filter. Qed.

Lemma elem_of_unfound x l : x ∈ unfound l ↔ reflexive x = false ∧ x ∈ l.
Proof.
  unfold unfound. by rewrite elem_of_list_to_set_disj, list_elem_of_filter.
Qed.

Lemma found_reflexive l :
  forallb reflexive l = true → found l = list_to_set l ∧ unfound l = ∅.
Proof.
  induction l as [|x l IH]; simpl; [done|].
  intros [Hx Hl]%andb_true_iff. destruct (IH Hl) as [IH1 IH2].
  by rewrite found_cons, unfound_cons, Hx, IH1, IH2.
Qed.

(** Assigning the keys of a list, one after the other. *)
Lemma assign_list l : ∀ M,
  fold_left map_assign l M = mkMap (found l ∪ keys M) (unfound l ⊎ loose M).
Proof.
  induction l as [|x l IH]; intros M; simpl.
  - rewrite found_nil, unfound_nil, union_empty_l_L, left_id_L by apply _.
    by rewrite gomap_eta.
  - rewrite IH, found_cons, unfound_cons. unfold map_assign.
    destruct (reflexive x); simpl; apply gomap_eq; simpl;
      [set_solver|done|done|multiset_solver].
Qed.

(** Deleting the keys of a list, one after the other. *)
Lemma delete_list l : ∀ M,
  fold_left map_delete l M = mkMap (keys M ∖ found l) (loose M).
Proof.
  induction l as [|x l IH]; intros M; simpl.
  - by rewrite found_nil, difference_empty_L, gomap_eta.
  - rewrite IH, found_cons. unfold map_delete.
    destruct (reflexive x); simpl; [|done].
    apply gomap_eq; simpl; [set_solver|done].
Qed.

Lemma map_access_true M x :
  map_access M x = true ↔ reflexive x = true ∧ x ∈ keys M.
Proof.
  unfold map_access. by rewrite andb_true_iff, bool_decide_eq_true.
Qed.

Lemma map_access_wf M x : map_wf M → map_access M x = bool_decide (x ∈ keys M).
Proof.
  intros [Hk _]. unfold map_access.
  destruct (decide (x ∈ keys M)) as [Hx|Hx].
  - by rewrite (Hk x Hx), bool_decide_eq_true_2.
  - rewrite (bool_decide_eq_false_2 _ Hx). apply andb_false_r.
Qed.

Lemma map_wf_make : map_wf map_make.
Proof. split; intros x; simpl; [set_solver|multiset_solver]. Qed.

Lemma list_to_set_disj_of_elements (X : gmultiset value) :
  list_to_set_disj (elements X) = X.
Proof.
  induction X as [|x X IH] using gmultiset_ind; [done|].
  rewrite gmultiset_elements_disj_union, list_to_set_disj_app, IH.
  rewrite gmultiset_elements_singleton. simpl. multiset_solver.
Qed.

Lemma filter_all {A} (P : A → Prop) `{∀ x, Decision (P x)} (l : list A) :
  (∀ x, x ∈ l → P x) → filter P l = l.
Proof.
  induction l as [|x l IH]; intros Hall; [done|].
  rewrite filter_cons_True by (apply Hall; left).
  f_equal. apply IH. intros y Hy. apply Hall. by right.
Qed.

(** The entries of a map, split again. *)
Lemma found_entries M : map_wf M → found (map_entries M) = keys M.
Proof.
  intros [Hk Hl]. apply set_eq. intros x.
  rewrite elem_of_found. unfold map_entries.
  rewrite elem_of_app, elem_of_elements, gmultiset_elem_of_elements. split.
  - intros [Hx [?|Hin]]; [done|]. rewrite (Hl x Hin) in Hx. done.
  - intros Hx. split; [by apply Hk|by left].
Qed.

Lemma unfound_entries M : map_wf M → unfound (map_entries M) = loose M.
Proof.
  intros [Hk Hl]. unfold unfound, map_entries. rewrite filter_app.
  rewrite list_to_set_disj_app.
  assert (filter (λ x, reflexive x = false) (elements (keys M)) = []) as ->.
  { apply elem_of_nil_inv. intros x [Hx Hin]%list_elem_of_filter.
    apply elem_of_elements in Hin. by rewrite (Hk x Hin) in Hx. }
  assert (filter (λ x, reflexive x = false) (elements (loose M))
          = elements (loose M)) as ->.
  { apply filter_all. intros x Hx. by apply Hl, gmultiset_elem_of_elements. }
  by rewrite list_to_set_disj_nil, left_id_L, list_to_set_disj_of_elements
    by apply _.
Qed.

Lemma elem_of_entries M x : x ∈ map_entries M ↔ entry x M.
Proof.
  unfold map_entries, entry.
  by rewrite elem_of_app, elem_of_elements, gmultiset_elem_of_elements.
Qed.

Lemma selfequal_entry M : selfequal M ↔ ∀ x, entry x M → reflexive x = true.
Proof.
  unfold selfequal. rewrite Forall_forall.
  split; intros H x Hx; by apply H, elem_of_entries.
Qed.

Lemma selfequal_loose M : map_wf M → selfequal M ↔ loose M = ∅.
Proof.
  intros [Hk Hl]. rewrite selfequal_entry. split.
  - intros H. apply gmultiset_size_empty_inv.
    destruct (size (loose M)) eqn:E; [done|].
    destruct (gmultiset_size_pos_elem_of (loose M)) as [x Hx]; [lia|].
    pose proof (Hl x Hx). rewrite H in *; [done|by right].
  - intros He x [Hx|Hx]; [by apply Hk|]. rewrite He in Hx. multiset_solver.
Qed.

Lemma decide_loose M :
  map_wf M → bool_decide (loose M = ∅) = bool_decide (selfequal M).
Proof. intros HM. apply bool_decide_ext. by rewrite selfequal_loose. Qed.

(** ** Running the primitives *)

Lemma bind_Ok {A B} (c : M A) (k : A → M B) h a h' :
  c h = Ok (a, h') → bind c k h = k a h'.
Proof. unfold bind. by intros ->. Qed.

Lemma bind_Panic {A B} (c : M A) (k : A → M B) h :
  c h = Panic → bind c k h = Panic.
Proof. unfold bind. by intros ->. Qed.

Lemma bind_inv {A B} (c : M A) (k : A → M B) h b h' :
  bind c k h = Ok (b, h') → ∃ a h1, c h = Ok (a, h1) ∧ k a h1 = Ok (b, h').
Proof. unfold bind. destruct (c h) as [[a h1]|]; [eauto|done]. Qed.

Lemma deref_loc h a o : h !! a = Some o → deref (loc a) h = Ok (o, h).
Proof. unfold deref. by intros ->. Qed.

Lemma store_loc h a o o' :
  h !! a = Some o → store (loc a) o' h = Ok (tt, <[a:=o']> h).
Proof. unfold store. by intros ->. Qed.

Lemma Set_eta o : mkSet (m o) (kind o) = o.
Proof. by destruct o. Qed.

Lemma heap_insert_same (h : heap) a o : h !! a = Some o → <[a:=o]> h = h.
Proof. apply list_insert_id. Qed.

Lemma heap_lookup_insert (h : heap) a o o' :
  h !! a = Some o → <[a:=o']> h !! a = Some o'.
Proof. intros H. apply list_lookup_insert_eq. by eapply lookup_lt_Some. Qed.

Lemma heap_lookup_alloc (h : heap) o : (h ++ [o]) !! length h = Some o.
Proof. rewrite lookup_app_r by lia. by rewrite Nat.sub_diag. Qed.

Lemma heap_lookup_old (h : heap) a o o' :
  h !! a = Some o → (h ++ [o']) !! a = Some o.
Proof. intros H. by apply lookup_app_l_Some. Qed.

Lemma heap_insert_alloc (h : heap) o o' :
  <[length h:=o']> (h ++ [o]) = h ++ [o'].
Proof.
  rewrite insert_app_r_alt by lia. by rewrite Nat.sub_diag.
Qed.

Lemma typematch_run h a b so to :
  h !! a = Some so → h !! b = Some to →
  typematch (loc a) (loc b) h =
    Ok (if decide (kind so ≠ kind to)
        then Some (KindMismatch (kind so) (kind to)) else None, h).
Proof.
  intros Ha Hb. unfold typematch.
  rewrite (bind_Ok _ _ _ _ _ (deref_loc _ _ _ Ha)).
  rewrite (bind_Ok _ _ _ _ _ (deref_loc _ _ _ Hb)).
  by case_decide.
Qed.

(** What the call sites [s.typecheck(items)] compute: the one value checked
    is the slice, whose kind is [Slice]. *)
Lemma typecheck_slice h a o items :
  h !! a = Some o →
  typecheck (loc a) [VSlice items] h =
    Ok (if decide (reflect.Slice ≠ kind o)
        then Some (TypeViolation reflect.Slice (kind o)) else None, h).
Proof.
  intros Ha. simpl.
  rewrite (bind_Ok _ _ _ _ _ (deref_loc _ _ _ Ha)).
  by case_decide.
Qed.

Lemma typecheck_slice_eq s items h r h' :
  typecheck s [VSlice items] h = Ok (r, h') → h' = h.
Proof.
  simpl. intros (so & h1 & Hd & Hrest)%bind_inv.
  assert (h1 = h) as ->.
  { destruct s as [|a]; [done|]. unfold deref in Hd.
    destruct (h !! a); [by injection Hd|done]. }
  case_decide; by injection Hrest.
Qed.

Lemma mapassign_run h a o x :
  h !! a = Some o →
  mapassign (loc a) x h =
    if hashable x
    then Ok (tt, <[a := mkSet (map_assign (m o) x) (kind o)]> h) else Panic.
Proof.
  intros Ha. unfold mapassign.
  rewrite (bind_Ok _ _ _ _ _ (deref_loc _ _ _ Ha)).
  destruct (hashable x); [by apply (store_loc _ _ o)|done].
Qed.

Lemma mapdelete_run h a o x :
  h !! a = Some o →
  mapdelete (loc a) x h =
    if hashable x
    then Ok (tt, <[a := mkSet (map_delete (m o) x) (kind o)]> h) else Panic.
Proof.
  intros Ha. unfold mapdelete.
  rewrite (bind_Ok _ _ _ _ _ (deref_loc _ _ _ Ha)).
  destruct (hashable x); [by apply (store_loc _ _ o)|done].
Qed.

Lemma mapaccess_run h a o x :
  h !! a = Some o →
  mapaccess (loc a) x h =
    if hashable x then Ok (map_access (m o) x, h) else Panic.
Proof.
  intros Ha. unfold mapaccess.
  rewrite (bind_Ok _ _ _ _ _ (deref_loc _ _ _ Ha)).
  by destruct (hashable x).
Qed.

Lemma assign_all items : ∀ h a o,
  h !! a = Some o → forallb hashable items = true →
  for_range items (mapassign (loc a)) h =
    Ok (tt, <[a := mkSet (fold_left map_assign items (m o)) (kind o)]> h).
Proof.
  induction items as [|x items IH]; intros h a o Ha Hh; simpl.
  - rewrite Set_eta, heap_insert_same; done.
  - simpl in Hh. apply andb_true_iff in Hh as [Hx Hh].
    unfold bind. rewrite (mapassign_run _ _ _ _ Ha), Hx.
    rewrite (IH _ a _ (heap_lookup_insert _ _ _ _ Ha) Hh). simpl.
    by rewrite list_insert_insert_eq.
Qed.

Lemma assign_panics items : ∀ h a o,
  h !! a = Some o → forallb hashable items = false →
  for_range items (mapassign (loc a)) h = Panic.
Proof.
  induction items as [|x items IH]; intros h a o Ha Hh; simpl in *; [done|].
  unfold bind. rewrite (mapassign_run _ _ _ _ Ha).
  destruct (hashable x); simpl in Hh; [|done].
  by apply (IH _ a _ (heap_lookup_insert _ _ _ _ Ha)).
Qed.

Lemma delete_all items : ∀ h a o,
  h !! a = Some o → forallb hashable items = true →
  for_range items (mapdelete (loc a)) h =
    Ok (tt, <[a := mkSet (fold_left map_delete items (m o)) (kind o)]> h).
Proof.
  induction items as [|x items IH]; intros h a o Ha Hh; simpl.
  - rewrite Set_eta, heap_insert_same; done.
  - simpl in Hh. apply andb_true_iff in Hh as [Hx Hh].
    unfold bind. rewrite (mapdelete_run _ _ _ _ Ha), Hx.
    rewrite (IH _ a _ (heap_lookup_insert _ _ _ _ Ha) Hh). simpl.
    by rewrite list_insert_insert_eq.
Qed.

Lemma delete_panics items : ∀ h a o,
  h !! a = Some o → forallb hashable items = false →
  for_range items (mapdelete (loc a)) h = Panic.
Proof.
  induction items as [|x items IH]; intros h a o Ha Hh; simpl in *; [done|].
  unfold bind. rewrite (mapdelete_run _ _ _ _ Ha).
  destruct (hashable x); simpl in Hh; [|done].
  by apply (IH _ a _ (heap_lookup_insert _ _ _ _ Ha)).
Qed.

Lemma access_all items : ∀ h a o,
  h !! a = Some o → forallb hashable items = true →
  all_range items (mapaccess (loc a)) h =
    Ok (forallb (map_access (m o)) items, h).
Proof.
  induction items as [|x items IH]; intros h a o Ha Hh; simpl; [done|].
  simpl in Hh. apply andb_true_iff in Hh as [Hx Hh].
  unfold bind. rewrite (mapaccess_run _ _ _ _ Ha), Hx.
  destruct (map_access (m o) x); simpl; [by apply IH|done].
Qed.

(** ** Add, Remove, Has and New, case by case *)

Lemma Add_nil s h : Add s [] h = Ok (None, h).
Proof. done. Qed.

Lemma Remove_nil s h : Remove s [] h = Ok (None, h).
Proof. done. Qed.

Lemma Has_nil s h : Has s [] h = Ok ((false, None), h).
Proof. done. Qed.

Lemma Add_run h a o items :
  h !! a = Some o → items ≠ [] →
  Add (loc a) items h =
    if decide (reflect.Slice ≠ kind o)
    then Ok (Some (TypeViolation reflect.Slice (kind o)), h)
    else if forallb hashable items
    then Ok (None, <[a := mkSet (fold_left map_assign items (m o)) (kind o)]> h)
    else Panic.
Proof.
  intros Ha Hne. unfold Add.
  case_decide as Hlen; [by destruct items|].
  unfold bind. rewrite (typecheck_slice _ _ _ _ Ha).
  case_decide; [done|].
  destruct (forallb hashable items) eqn:Hh.
  - by rewrite (assign_all _ _ _ _ Ha Hh).
  - by rewrite (assign_panics _ _ _ _ Ha Hh).
Qed.

Lemma Remove_run h a o items :
  h !! a = Some o → items ≠ [] →
  Remove (loc a) items h =
    if decide (reflect.Slice ≠ kind o)
    then Ok (Some (TypeViolation reflect.Slice (kind o)), h)
    else if forallb hashable items
    then Ok (None, <[a := mkSet (fold_left map_delete items (m o)) (kind o)]> h)
    else Panic.
Proof.
  intros Ha Hne. unfold Remove.
  case_decide as Hlen; [by destruct items|].
  unfold bind. rewrite (typecheck_slice _ _ _ _ Ha).
  case_decide; [done|].
  destruct (forallb hashable items) eqn:Hh.
  - by rewrite (delete_all _ _ _ _ Ha Hh).
  - by rewrite (delete_panics _ _ _ _ Ha Hh).
Qed.

Lemma Add_rejects h a o items :
  h !! a = Some o → items ≠ [] → kind o ≠ reflect.Slice →
  Add (loc a) items h = Ok (Some (TypeViolation reflect.Slice (kind o)), h).
Proof.
  intros Ha Hne Hk. rewrite (Add_run _ _ _ _ Ha Hne). case_decide; [done|congruence].
Qed.

Lemma Remove_rejects h a o items :
  h !! a = Some o → items ≠ [] → kind o ≠ reflect.Slice →
  Remove (loc a) items h = Ok (Some (TypeViolation reflect.Slice (kind o)), h).
Proof.
  intros Ha Hne Hk. rewrite (Remove_run _ _ _ _ Ha Hne). case_decide; [done|congruence].
Qed.

Lemma Has_rejects h a o items :
  h !! a = Some o → items ≠ [] → kind o ≠ reflect.Slice →
  Has (loc a) items h =
    Ok ((false, Some (TypeViolation reflect.Slice (kind o))), h).
Proof.
  intros Ha Hne Hk. unfold Has.
  case_decide as Hlen; [by destruct items|].
  unfold bind. rewrite (typecheck_slice _ _ _ _ Ha).
  case_decide; [done|congruence].
Qed.

Lemma Has_accepts h a o items :
  h !! a = Some o → items ≠ [] → kind o = reflect.Slice →
  forallb hashable items = true →
  Has (loc a) items h =
    Ok ((forallb (map_access (m o)) items, None), h).
Proof.
  intros Ha Hne Hk Hh. unfold Has.
  case_decide as Hlen; [by destruct items|].
  unfold bind. rewrite (typecheck_slice _ _ _ _ Ha).
  case_decide; [congruence|].
  by rewrite (access_all _ _ _ _ Ha Hh).
Qed.

Lemma New_run k items h :
  New k items h =
    match Add (loc (length h)) items (h ++ [mkSet map_make k]) with
    | Ok (_, h') => Ok (loc (length h), h')
    | Panic => Panic
    end.
Proof.
  unfold New, bind, alloc.
  by destruct (Add (loc (length h)) items (h ++ [mkSet map_make k])) as [[]|].
Qed.

Lemma New_empty k h : New k [] h = Ok (loc (length h), h ++ [mkSet map_make k]).
Proof. done. Qed.

Lemma New_nonslice k items h :
  k ≠ reflect.Slice → New k items h = Ok (loc (length h), h ++ [mkSet map_make k]).
Proof.
  intros Hk. destruct items as [|x items]; [done|].
  rewrite New_run, (Add_run _ _ _ _ (heap_lookup_alloc h _)) by done.
  simpl. case_decide; [done|congruence].
Qed.

Lemma New_slice items h :
  forallb hashable items = true →
  New reflect.Slice items h =
    Ok (loc (length h),
        h ++ [mkSet (fold_left map_assign items map_make) reflect.Slice]).
Proof.
  intros Hh. destruct items as [|x items].
  { by rewrite New_empty. }
  rewrite New_run, (Add_run _ _ _ _ (heap_lookup_alloc h _)) by done.
  simpl kind. case_decide; [done|]. rewrite Hh.
  by rewrite heap_insert_alloc.
Qed.

Lemma New_slice_panics items h :
  forallb hashable items = false → New reflect.Slice items h = Panic.
Proof.
  intros Hh. destruct items as [|x items]; [done|].
  rewrite New_run, (Add_run _ _ _ _ (heap_lookup_alloc h _)) by done.
  simpl kind. case_decide; [done|]. by rewrite Hh.
Qed.

(** ** The loops that call Add, Remove and Has one item at a time *)

Lemma Add_one h a o x :
  h !! a = Some o → kind o = reflect.Slice → hashable x = true →
  Add (loc a) [x] h = Ok (None, <[a := mkSet (map_assign (m o) x) (kind o)]> h).
Proof.
  intros Ha Hk Hx. rewrite (Add_run _ _ _ _ Ha) by done.
  case_decide; [congruence|]. simpl. by rewrite Hx.
Qed.

Lemma Remove_one h a o x :
  h !! a = Some o → kind o = reflect.Slice → hashable x = true →
  Remove (loc a) [x] h = Ok (None, <[a := mkSet (map_delete (m o) x) (kind o)]> h).
Proof.
  intros Ha Hk Hx. rewrite (Remove_run _ _ _ _ Ha) by done.
  case_decide; [congruence|]. simpl. by rewrite Hx.
Qed.

Lemma Has_one h a o x :
  h !! a = Some o → kind o = reflect.Slice → hashable x = true →
  Has (loc a) [x] h = Ok ((map_access (m o) x, None), h).
Proof.
  intros Ha Hk Hx. rewrite (Has_accepts _ _ _ _ Ha) by (simpl; by rewrite ?Hx).
  simpl. by rewrite andb_true_r.
Qed.

Lemma add_each l : ∀ h a o,
  h !! a = Some o → kind o = reflect.Slice ∨ l = [] →
  forallb hashable l = true →
  for_range l (λ item, Add (loc a) [item] ;;; ret tt) h =
    Ok (tt, <[a := mkSet (fold_left map_assign l (m o)) (kind o)]> h).
Proof.
  induction l as [|x l IH]; intros h a o Ha Hk Hh; simpl.
  - rewrite Set_eta, heap_insert_same; done.
  - destruct Hk as [Hk|]; [|done].
    simpl in Hh. apply andb_true_iff in Hh as [Hx Hh].
    unfold bind at 1 2. rewrite (Add_one _ _ _ _ Ha Hk Hx). unfold ret at 1.
    rewrite (IH _ a _ (heap_lookup_insert _ _ _ _ Ha)) by auto.
    simpl. by rewrite list_insert_insert_eq.
Qed.

Lemma remove_each l : ∀ h a o,
  h !! a = Some o → kind o = reflect.Slice ∨ l = [] →
  forallb hashable l = true →
  for_range l (λ item, Remove (loc a) [item] ;;; ret tt) h =
    Ok (tt, <[a := mkSet (fold_left map_delete l (m o)) (kind o)]> h).
Proof.
  induction l as [|x l IH]; intros h a o Ha Hk Hh; simpl.
  - rewrite Set_eta, heap_insert_same; done.
  - destruct Hk as [Hk|]; [|done].
    simpl in Hh. apply andb_true_iff in Hh as [Hx Hh].
    unfold bind at 1 2. rewrite (Remove_one _ _ _ _ Ha Hk Hx). unfold ret at 1.
    rewrite (IH _ a _ (heap_lookup_insert _ _ _ _ Ha)) by auto.
    simpl. by rewrite list_insert_insert_eq.
Qed.

Lemma has_each l : ∀ h a o,
  h !! a = Some o → kind o = reflect.Slice ∨ l = [] →
  forallb hashable l = true →
  all_range l (λ item, r <- Has (loc a) [item] ;; ret r.1) h =
    Ok (forallb (map_access (m o)) l, h).
Proof.
  induction l as [|x l IH]; intros h a o Ha Hk Hh; simpl; [done|].
  destruct Hk as [Hk|]; [|done].
  simpl in Hh. apply andb_true_iff in Hh as [Hx Hh].
  unfold bind at 1 2. rewrite (Has_one _ _ _ _ Ha Hk Hx). unfold ret at 1. simpl.
  destruct (map_access (m o) x); simpl; [apply IH; auto|done].
Qed.

(** The loop of [Intersection] ([f] the identity) and of [Difference] ([f]
    the negation): items of [l] are tested in the set at [b] and added to the
    set at [c]. *)
Lemma add_filtered (f : bool → bool) l : ∀ h b c to uo,
  h !! b = Some to → h !! c = Some uo → b ≠ c →
  (kind to = reflect.Slice ∧ kind uo = reflect.Slice) ∨ l = [] →
  forallb hashable l = true →
  for_range l (λ item,
      r <- Has (loc b) [item] ;;
      if f r.1 then Add (loc c) [item] ;;; ret tt else ret tt) h =
    Ok (tt, <[c := mkSet (fold_left map_assign
                (filter (λ x, f (map_access (m to) x) = true) l) (m uo))
              (kind uo)]> h).
Proof.
  induction l as [|x l IH]; intros h b c to uo Hb Hc Hbc Hk Hh; simpl.
  - rewrite Set_eta, heap_insert_same; done.
  - destruct Hk as [[Hkt Hku]|]; [|done].
    simpl in Hh. apply andb_true_iff in Hh as [Hx Hh].
    unfold bind at 1 2. rewrite (Has_one _ _ _ _ Hb Hkt Hx). simpl.
    rewrite filter_cons.
    destruct (f (map_access (m to) x)) eqn:Hf.
    + rewrite decide_True by done.
      unfold bind at 1. rewrite (Add_one _ _ _ _ Hc Hku Hx). unfold ret at 1.
      rewrite (IH _ b c to (mkSet (map_assign (m uo) x) (kind uo))); auto.
      * simpl. by rewrite list_insert_insert_eq.
      * by rewrite list_lookup_insert_ne.
      * by apply (heap_lookup_insert _ _ uo).
    + rewrite decide_False by done. unfold ret at 1. by apply IH; auto.
Qed.

Ltac bind_with H := rewrite (bind_Ok _ _ _ _ _ H); cbv beta.

Lemma New_admitted k l h :
  k = reflect.Slice ∨ l = [] → forallb hashable l = true →
  New k l h = Ok (loc (length h), h ++ [mkSet (fold_left map_assign l map_make) k]).
Proof.
  intros [->| ->] Hh; [by apply New_slice|by rewrite New_empty].
Qed.

(** ** Objects that satisfy the invariant *)

Lemma set_inv_make k : set_inv (mkSet map_make k).
Proof.
  split; [apply map_wf_make|]. split; [|done].
  intros x [Hx|Hx]; simpl in Hx; [set_solver|multiset_solver].
Qed.

Lemma set_inv_assign o l :
  set_inv o → kind o = reflect.Slice → forallb hashable l = true →
  set_inv (mkSet (fold_left map_assign l (m o)) (kind o)).
Proof.
  intros ([Hk Hl] & Hh & _) HS Hhl. rewrite assign_list.
  assert (∀ x, x ∈ l → hashable x = true) as Hin.
  { intros x Hx. apply (proj1 (forallb_forall _ _) Hhl). by apply list_elem_of_In. }
  split; [split|split]; simpl.
  - intros x [[? _]%elem_of_found|Hx]%elem_of_union; [done|by apply Hk].
  - intros x [[? _]%elem_of_unfound|Hx]%gmultiset_elem_of_disj_union;
      [done|by apply Hl].
  - intros x [[[_ Hx]%elem_of_found|Hx]%elem_of_union
             |[[_ Hx]%elem_of_unfound|Hx]%gmultiset_elem_of_disj_union];
      [by apply Hin|apply Hh; by left|by apply Hin|apply Hh; by right].
  - done.
Qed.

Lemma set_inv_delete o l :
  set_inv o → set_inv (mkSet (fold_left map_delete l (m o)) (kind o)).
Proof.
  intros ([Hk Hl] & Hh & He). rewrite delete_list.
  split; [split|split]; simpl.
  - intros x [Hx _]%elem_of_difference. by apply Hk.
  - done.
  - intros x [[Hx _]%elem_of_difference|Hx]; apply Hh; [by left|by right].
  - intros Hne. rewrite (He Hne). simpl. apply gomap_eq; simpl; [set_solver|done].
Qed.

(** ** Relations every run respects *)

#[global] Instance keeps_inv_preorder : PreOrder keeps_inv.
Proof. split; unfold keeps_inv; [by intros h|intros h1 h2 h3; auto]. Qed.

#[global] Instance frame_preorder c : PreOrder (frame c).
Proof. split; unfold frame; [by intros h|intros h1 h2 h3 H1 H2 a o ? ?; eauto]. Qed.

Section respects.

Context (R : relation heap) `{!PreOrder R}.

Lemma respects_eq {A} (p : M A) : respects eq p → respects R p.
Proof. intros Hp h r h' Hrun. by rewrite (Hp _ _ _ Hrun). Qed.

Lemma respects_ret {A} (a : A) : respects R (ret a).
Proof. intros h r h' [= _ <-]. reflexivity. Qed.

Lemma respects_panic {A} : respects R (@panic A).
Proof. by intros h r h'. Qed.

Lemma respects_bind {A B} (c : M A) (k : A → M B) :
  respects R c → (∀ a, respects R (k a)) → respects R (bind c k).
Proof.
  intros Hc Hk h r h' (a & h1 & H1 & H2)%bind_inv.
  transitivity h1; [by eapply Hc|by eapply Hk].
Qed.

Lemma respects_for_range {A} (l : list A) (body : A → M ()) :
  (∀ x, respects R (body x)) → respects R (for_range l body).
Proof.
  intros Hb. induction l as [|x l IH]; simpl.
  - apply respects_ret.
  - apply respects_bind; [apply Hb|by intros _].
Qed.

Lemma respects_all_range {A} (l : list A) (test : A → M bool) :
  (∀ x, respects R (test x)) → respects R (all_range l test).
Proof.
  intros Hb. induction l as [|x l IH]; simpl.
  - apply respects_ret.
  - apply respects_bind; [apply Hb|]. intros [|]; [done|apply respects_ret].
Qed.

End respects.

Create HintDb resp.

(** One step through the structure of a computation. *)
Ltac resp_step :=
  match goal with
  | |- respects ?R (ret _) => apply (respects_ret R)
  | |- respects ?R panic => apply (respects_panic R)
  | |- respects ?R (bind _ _) => apply (respects_bind R); [|intros ?]
  | |- respects ?R (for_range _ _) => apply (respects_for_range R); intros ?
  | |- respects ?R (all_range _ _) => apply (respects_all_range R); intros ?
  | |- respects _ (match ?x with _ => _ end) => destruct x
  | |- respects ?R _ =>
      first [ solve [auto with resp]
            | apply (respects_eq R); solve [auto with resp] ]
  end.

Ltac resp := repeat resp_step.

(** Computations that never write. *)
Lemma deref_unchanged s : respects eq (deref s).
Proof.
  intros h r h'. unfold deref. destruct s as [|a]; [done|].
  by destruct (h !! a); [intros [= _ <-]|].
Qed.
#[global] Hint Resolve deref_unchanged : resp.

Lemma typematch_unchanged s t : respects eq (typematch s t).
Proof. unfold typematch. resp. Qed.
#[global] Hint Resolve typematch_unchanged : resp.

Lemma typecheck_unchanged s items : respects eq (typecheck s items).
Proof. induction items as [|x items IH]; simpl; resp. Qed.
#[global] Hint Resolve typecheck_unchanged : resp.

Lemma mapaccess_unchanged s x : respects eq (mapaccess s x).
Proof. unfold mapaccess. resp. Qed.
#[global] Hint Resolve mapaccess_unchanged : resp.

Lemma Has_unchanged s items : respects eq (Has s items).
Proof. unfold Has. resp. Qed.
#[global] Hint Resolve Has_unchanged : resp.

Lemma Size_unchanged s : respects eq (Size s).
Proof. unfold Size. resp. Qed.
#[global] Hint Resolve Size_unchanged : resp.

Lemma IsEmpty_unchanged s : respects eq (IsEmpty s).
Proof. unfold IsEmpty. resp. Qed.
#[global] Hint Resolve IsEmpty_unchanged : resp.

(** The only way [Add] and [Remove] write. *)
Lemma Add_cases s items h r h' :
  Add s items h = Ok (r, h') →
  h' = h ∨
  ∃ a o, s = loc a ∧ h !! a = Some o ∧ kind o = reflect.Slice ∧
    forallb hashable items = true ∧ r = None ∧
    h' = <[a := mkSet (fold_left map_assign items (m o)) (kind o)]> h.
Proof.
  destruct items as [|x l]; [rewrite Add_nil; intros [= <- <-]; by left|].
  destruct s as [|a]; [done|].
  destruct (h !! a) as [o|] eqn:Ha.
  - rewrite (Add_run _ _ _ _ Ha) by done.
    case_decide as Hk; [intros [= <- <-]; by left|].
    destruct (forallb hashable (x :: l)) eqn:Hh; [|done].
    intros [= <- <-]. right. exists a, o.
    destruct (decide (kind o = reflect.Slice)); [done|congruence].
  - unfold Add, bind. simpl. unfold bind, deref. by rewrite Ha.
Qed.

Lemma Remove_cases s items h r h' :
  Remove s items h = Ok (r, h') →
  h' = h ∨
  ∃ a o, s = loc a ∧ h !! a = Some o ∧
    h' = <[a := mkSet (fold_left map_delete items (m o)) (kind o)]> h.
Proof.
  destruct items as [|x l]; [rewrite Remove_nil; intros [= <- <-]; by left|].
  destruct s as [|a]; [done|].
  destruct (h !! a) as [o|] eqn:Ha.
  - rewrite (Remove_run _ _ _ _ Ha) by done.
    case_decide as Hk; [intros [= <- <-]; by left|].
    destruct (forallb hashable (x :: l)) eqn:Hh; [|done].
    intros [= <- <-]. right. by exists a, o.
  - unfold Remove, bind. simpl. unfold bind, deref. by rewrite Ha.
Qed.

Lemma Clear_cases s h r h' :
  Clear s h = Ok (r, h') →
  ∃ a o, s = loc a ∧ h !! a = Some o ∧ h' = <[a := mkSet map_make (kind o)]> h.
Proof.
  destruct s as [|a]; [done|]. unfold Clear, bind, deref, store.
  destruct (h !! a) as [o|] eqn:Ha; [|done]. rewrite Ha.
  intros [= <- <-]. by exists a, o.
Qed.

Lemma heap_inv_insert h a o : heap_inv h → set_inv o → heap_inv (<[a:=o]> h).
Proof.
  intros Hh Ho. unfold heap_inv. apply Forall_insert; done.
Qed.

Lemma heap_inv_lookup h a o : heap_inv h → h !! a = Some o → set_inv o.
Proof. intros Hh Ha. by eapply Forall_lookup_1. Qed.

Lemma heap_inv_alloc h o : heap_inv h → set_inv o → heap_inv (h ++ [o]).
Proof. intros Hh Ho. apply Forall_app. split; [done|by constructor]. Qed.

Lemma frame_insert c h o : frame c h (<[c:=o]> h).
Proof. intros a o' Hne Ha. by rewrite list_lookup_insert_ne. Qed.

Lemma Add_keeps s items : respects keeps_inv (Add s items).
Proof.
  intros h r h' [->|(a & o & -> & Ha & Hk & Hh & -> & ->)]%Add_cases Hinv; [done|].
  apply heap_inv_insert; [done|].
  apply set_inv_assign; eauto using heap_inv_lookup.
Qed.

Lemma Remove_keeps s items : respects keeps_inv (Remove s items).
Proof.
  intros h r h' [->|(a & o & -> & Ha & ->)]%Remove_cases Hinv; [done|].
  apply heap_inv_insert; [done|].
  apply set_inv_delete. by eapply heap_inv_lookup.
Qed.

Lemma Clear_keeps s : respects keeps_inv (Clear s).
Proof.
  intros h r h' (a & o & -> & Ha & ->)%Clear_cases Hinv.
  apply heap_inv_insert; [done|apply set_inv_make].
Qed.

Lemma alloc_keeps o : set_inv o → respects keeps_inv (alloc o).
Proof. intros Ho h r h' [= _ <-] Hinv. by apply heap_inv_alloc. Qed.

#[global] Hint Resolve Add_keeps Remove_keeps Clear_keeps alloc_keeps set_inv_make : resp.

Lemma New_keeps k items : respects keeps_inv (New k items).
Proof. unfold New. resp. Qed.
#[global] Hint Resolve New_keeps : resp.

Lemma Add_frame c items : respects (frame c) (Add (loc c) items).
Proof.
  intros h r h' [->|(a & o & [= <-] & Ha & Hk & Hh & -> & ->)]%Add_cases;
    [reflexivity|apply frame_insert].
Qed.

Lemma Remove_frame c items : respects (frame c) (Remove (loc c) items).
Proof.
  intros h r h' [->|(a & o & [= <-] & Ha & ->)]%Remove_cases;
    [reflexivity|apply frame_insert].
Qed.

Lemma Clear_frame c : respects (frame c) (Clear (loc c)).
Proof.
  intros h r h' (a & o & [= <-] & Ha & ->)%Clear_cases. apply frame_insert.
Qed.
#[global] Hint Resolve Add_frame Remove_frame Clear_frame : resp.



(** ** More relations between the heap before and after a run *)

#[global] Instance keeps_kind_preorder : PreOrder keeps_kind.
Proof.
  split; unfold keeps_kind.
  - intros h a o Ha. eauto.
  - intros h1 h2 h3 H12 H23 a o Ha.
    destruct (H12 a o Ha) as (o2 & H2 & Hk2).
    destruct (H23 a o2 H2) as (o3 & H3 & Hk3).
    exists o3. split; [done|congruence].
Qed.

#[global] Instance only_at_preorder c : PreOrder (only_at c).
Proof.
  split; unfold only_at.
  - by intros h.
  - intros h1 h2 h3 [L12 H12] [L23 H23]. split; [congruence|].
    intros a Ha. by rewrite H23, H12.
Qed.

Lemma keeps_kind_insert h a o o' :
  h !! a = Some o → kind o' = kind o → keeps_kind h (<[a:=o']> h).
Proof.
  intros Ha Hk b ob Hb. destruct (decide (b = a)) as [->|Hne].
  - exists o'. split; [by apply (heap_lookup_insert _ _ o)|congruence].
  - exists ob. by rewrite list_lookup_insert_ne.
Qed.

Lemma only_at_insert c h o : only_at c h (<[c:=o]> h).
Proof.
  split; [apply length_insert|]. intros a Ha. by rewrite list_lookup_insert_ne.
Qed.

Lemma Add_keeps_kind s items : respects keeps_kind (Add s items).
Proof.
  intros h r h' [->|(a & o & -> & Ha & Hk & Hh & -> & ->)]%Add_cases;
    [reflexivity|by apply (keeps_kind_insert _ _ o)].
Qed.

Lemma Remove_keeps_kind s items : respects keeps_kind (Remove s items).
Proof.
  intros h r h' [->|(a & o & -> & Ha & ->)]%Remove_cases;
    [reflexivity|by apply (keeps_kind_insert _ _ o)].
Qed.

Lemma Clear_keeps_kind s : respects keeps_kind (Clear s).
Proof.
  intros h r h' (a & o & -> & Ha & ->)%Clear_cases.
  by apply (keeps_kind_insert _ _ o).
Qed.

Lemma alloc_keeps_kind o : respects keeps_kind (alloc o).
Proof.
  intros h r h' [= _ <-] a oa Ha. exists oa. split; [|done].
  by apply lookup_app_l_Some.
Qed.

Lemma Add_only_at c items : respects (only_at c) (Add (loc c) items).
Proof.
  intros h r h' [->|(a & o & [= <-] & Ha & Hk & Hh & -> & ->)]%Add_cases;
    [reflexivity|apply only_at_insert].
Qed.

Lemma Remove_only_at c items : respects (only_at c) (Remove (loc c) items).
Proof.
  intros h r h' [->|(a & o & [= <-] & Ha & ->)]%Remove_cases;
    [reflexivity|apply only_at_insert].
Qed.

Lemma Clear_only_at c : respects (only_at c) (Clear (loc c)).
Proof.
  intros h r h' (a & o & [= <-] & Ha & ->)%Clear_cases. apply only_at_insert.
Qed.

#[global] Hint Resolve Add_keeps_kind Remove_keeps_kind Clear_keeps_kind
  alloc_keeps_kind Add_only_at Remove_only_at Clear_only_at : resp.

Lemma collect_omap {T} (assert : value → option T) l :
  collect assert l = omap assert l.
Proof.
  unfold collect.
  assert (∀ acc, fold_left (λ slice item,
            match assert item with Some v => slice ++ [v] | None => slice end)
            l acc = acc ++ omap assert l) as H.
  { induction l as [|x l IH]; intros acc; simpl; [by rewrite app_nil_r|].
    rewrite IH. destruct (assert x); [by rewrite <- app_assoc|done]. }
  by rewrite H.
Qed.

Lemma Size_run h a o : h !! a = Some o → Size (loc a) h = Ok (map_len (m o), h).
Proof. intros Ha. unfold Size. by bind_with (deref_loc _ _ _ Ha). Qed.

Lemma entry_assign_list l M x :
  entry x (fold_left map_assign l M) ↔ x ∈ l ∨ entry x M.
Proof.
  rewrite assign_list. unfold entry. simpl.
  rewrite elem_of_union, gmultiset_elem_of_disj_union, elem_of_found,
    elem_of_unfound.
  destruct (reflexive x); naive_solver.
Qed.

Lemma access_assigned l M x :
  x ∈ l → map_access (fold_left map_assign l M) x = reflexive x.
Proof.
  intros Hx. rewrite assign_list. unfold map_access. simpl.
  destruct (reflexive x) eqn:Hr; [|done].
  rewrite bool_decide_eq_true_2; [done|].
  apply elem_of_union. left. by apply elem_of_found.
Qed.

Lemma access_deleted l M x :
  x ∈ l → map_access (fold_left map_delete l M) x = false.
Proof.
  intros Hx. rewrite delete_list. unfold map_access. simpl.
  destruct (reflexive x) eqn:Hr; [|done].
  rewrite bool_decide_eq_false_2; [done|].
  intros [_ Hn]%elem_of_difference. apply Hn. by apply elem_of_found.
Qed.

Lemma forallb_agree {A} (f g : A → bool) l :
  (∀ x, x ∈ l → f x = g x) → forallb f l = forallb g l.
Proof.
  induction l as [|y l IH]; intros H; simpl; [done|].
  rewrite H by left. f_equal. apply IH. intros x Hx. apply H. by right.
Qed.

Lemma unfound_empty l : forallb reflexive l = true → unfound l = ∅.
Proof.
  intros Hl. unfold unfound. rewrite (elem_of_nil_inv (filter _ l)); [done|].
  intros x [Hx Hin]%list_elem_of_filter.
  rewrite (proj1 (forallb_forall _ _) Hl x) in Hx; [done|by apply list_elem_of_In].
Qed.

Lemma map_len_assign M x :
  map_len (map_assign M x) =
    if map_access M x then map_len M else S (map_len M).
Proof.
  unfold map_len, map_assign, map_access.
  destruct (reflexive x); simpl.
  - case_bool_decide as Hin.
    + f_equal. f_equal. set_solver.
    + rewrite size_union by set_solver. by rewrite size_singleton.
  - by rewrite gmultiset_size_disj_union, gmultiset_size_singleton.
Qed.

(** ** Claims on Add, Remove, Has and New *)

(** C1 (the code departs from it).  Take a set constructed with kind [K] and
    any initial items, and an element [x] whose kind is [K].  [Add(x)]
    followed by [Has(x)], and [Remove(x)] followed by [Has(x)], never answer
    as the claim says.  When [K] is not [Slice] both calls of either pair
    return the error of the type check, and [Has] answers false with it.  When
    [K] is [Slice] the element is a slice, and hashing it panics. *)
Theorem Add_then_Has_never_true K items x h :
  KindOf x = Some K →
  (Add_then_Has K items x h = Panic ∧ Remove_then_Has K items x h = Panic) ∨
  (let e := Some (TypeViolation reflect.Slice K) in
   Add_then_Has K items x h = Ok ((e, (false, e)), h ++ [mkSet map_make K]) ∧
   Remove_then_Has K items x h = Ok ((e, (false, e)), h ++ [mkSet map_make K])).
Proof.
  intros Hx. unfold Add_then_Has, Remove_then_Has.
  destruct (decide (K = reflect.Slice)) as [->|HK].
  - left. destruct x; try discriminate Hx.
    destruct (forallb hashable items) eqn:Hh.
    + rewrite !(bind_Ok _ _ _ _ _ (New_slice items h Hh)).
      pose proof (heap_lookup_alloc h
        (mkSet (fold_left map_assign items map_make) reflect.Slice)) as Hs.
      split; apply bind_Panic.
      * rewrite (Add_run _ _ _ _ Hs) by done. by case_decide.
      * rewrite (Remove_run _ _ _ _ Hs) by done. by case_decide.
    + split; apply bind_Panic; by apply New_slice_panics.
  - right. simpl.
    rewrite !(bind_Ok _ _ _ _ _ (New_nonslice K items h HK)).
    pose proof (heap_lookup_alloc h (mkSet map_make K)) as Hs. split.
    + bind_with (Add_rejects _ _ _ [x] Hs ltac:(done) HK).
      by bind_with (Has_rejects _ _ _ [x] Hs ltac:(done) HK).
    + bind_with (Remove_rejects _ _ _ [x] Hs ltac:(done) HK).
      by bind_with (Has_rejects _ _ _ [x] Hs ltac:(done) HK).
Qed.

(** C2.  In a set whose kind is not [reflect.Slice], [Add], [Remove] and
    [Has] with a non-empty argument list return a non-nil error, the one of a
    value of kind [Slice] offered to the set; [Add] and [Remove] leave the
    heap as it was and [Has] answers false. *)
Theorem nonslice_set_rejects_every_call h a o items :
  h !! a = Some o → kind o ≠ reflect.Slice → items ≠ [] →
  Add (loc a) items h = Ok (Some (TypeViolation reflect.Slice (kind o)), h) ∧
  Remove (loc a) items h = Ok (Some (TypeViolation reflect.Slice (kind o)), h) ∧
  Has (loc a) items h = Ok ((false, Some (TypeViolation reflect.Slice (kind o))), h).
Proof.
  intros Ha Hk Hne.
  by rewrite (Add_rejects _ _ o), (Remove_rejects _ _ o), (Has_rejects _ _ o).
Qed.

(** C3 (the code departs from it).  [Has] on an [int] in a set of kind [Int]
    fails although the item's type is the set's kind; [Has] on an [int] in a
    set of kind [Slice] does not fail although the types differ, and reports
    the presence of that [int]; [Has] on a slice in a set of kind [Slice]
    panics.  With no item it answers false and no error. *)
Theorem Has_checks_the_argument_slice :
  result ((s <- New reflect.Int [] ;; Has s [VInt 1]) []) =
    Some (false, Some (TypeViolation reflect.Slice reflect.Int)) ∧
  result ((s <- New reflect.Slice [VInt 1] ;; Has s [VInt 1]) []) =
    Some (true, None) ∧
  result ((s <- New reflect.Slice [VInt 1] ;; Has s [VSlice [VInt 1]]) []) = None ∧
  result ((s <- New reflect.Int [] ;; Has s []) []) = Some (false, None).
Proof. repeat split; vm_compute; reflexivity. Qed.

(** C4 (the code departs from it).  [Add] does not check its items: it hands
    the argument slice to [typecheck] as one value.  A set of kind [Slice]
    given an [int] and a string, neither of which [typecheck] accepts for it,
    returns nil and holds both afterwards.  A set of kind [Int] given an
    [int], which [typecheck] accepts for it, returns the error and stays
    empty. *)
Theorem Add_checks_the_argument_slice :
  result ((s <- New reflect.Slice [] ;; typecheck s [VInt 1; VString "a"]) []) =
    Some (Some (TypeViolation reflect.Int reflect.Slice)) ∧
  result ((s <- New reflect.Slice [] ;; typecheck s [VString "a"]) []) =
    Some (Some (TypeViolation reflect.String reflect.Slice)) ∧
  result ((s <- New reflect.Slice [] ;;
           e <- Add s [VInt 1; VString "a"] ;;
           n <- Size s ;;
           r <- Has s [VInt 1; VString "a"] ;;
           ret (e, n, r.1)) []) = Some (None, 2, true) ∧
  result ((s <- New reflect.Int [] ;; typecheck s [VInt 1]) []) = Some None ∧
  result ((s <- New reflect.Int [] ;;
           e <- Add s [VInt 1] ;;
           n <- Size s ;;
           ret (e, n)) []) =
    Some (Some (TypeViolation reflect.Slice reflect.Int), 0).
Proof. repeat split; vm_compute; reflexivity. Qed.

(** C9 (as the code has it).  [New] has no error result.  Given items that
    can all be hashed it returns, for every kind, a non-nil pointer to a new
    object of that kind, after the objects there were.  What [Add] returns for
    the items is dropped: when it is an error the new set is empty, when it is
    nil every item is in the new set.  Nothing but the items is in it. *)
Theorem New_returns_unless_unhashable k items h :
  forallb hashable items = true →
  ∃ o, New k items h = Ok (loc (length h), h ++ [o]) ∧ kind o = k ∧
    (∀ x, entry x (m o) → x ∈ items) ∧
    (∀ e h', Add (loc (length h)) items (h ++ [mkSet map_make k]) = Ok (Some e, h') →
             m o = map_make) ∧
    (∀ h', Add (loc (length h)) items (h ++ [mkSet map_make k]) = Ok (None, h') →
           ∀ x, x ∈ items → entry x (m o)).
Proof.
  intros Hh. destruct (decide (k = reflect.Slice)) as [->|Hk].
  - exists (mkSet (fold_left map_assign items map_make) reflect.Slice).
    rewrite New_slice by auto. do 2 (split; [done|]). simpl.
    split; [|split].
    + intros x [Hx|[Hx|Hx]]%entry_assign_list; [done|set_solver|multiset_solver].
    + intros e h'. destruct items as [|y l]; [done|].
      rewrite (Add_run _ _ _ _ (heap_lookup_alloc h _)) by done. simpl kind.
      rewrite decide_False by (intros Hn; by apply Hn). by rewrite Hh.
    + intros h' _ x Hx. apply entry_assign_list. by left.
  - exists (mkSet map_make k). rewrite New_nonslice by done.
    do 2 (split; [done|]). simpl. split; [|split].
    + intros x [Hx|Hx]; [set_solver|multiset_solver].
    + done.
    + intros h'. destruct items as [|y l].
      * intros _ x Hx. by apply elem_of_nil in Hx.
      * by rewrite (Add_rejects _ _ _ _ (heap_lookup_alloc h _)).
Qed.

(** ** Sets of kind [Slice], and the type check *)

(** X15.  A set of kind [Slice] takes any items that can be hashed, of
    whatever kinds: [Add] returns no error and every item is an entry of the
    set afterwards.  [Has] then finds each item that equals itself, and does
    not find one that does not (a NaN): asked about all the items together it
    answers whether every one of them equals itself. *)
Theorem Slice_set_admits_any_hashable_item h a o items :
  h !! a = Some o → kind o = reflect.Slice → items ≠ [] →
  forallb hashable items = true →
  ∃ h1 o1,
    Add (loc a) items h = Ok (None, h1) ∧
    h1 !! a = Some o1 ∧ kind o1 = reflect.Slice ∧
    keys (m o1) = found items ∪ keys (m o) ∧
    loose (m o1) = unfound items ⊎ loose (m o) ∧
    (∀ x, entry x (m o1) ↔ x ∈ items ∨ entry x (m o)) ∧
    Has (loc a) items h1 = Ok ((forallb reflexive items, None), h1) ∧
    ∀ x, x ∈ items → Has (loc a) [x] h1 = Ok ((reflexive x, None), h1).
Proof.
  intros Ha Hk Hne Hh.
  set (o1 := mkSet (fold_left map_assign items (m o)) reflect.Slice).
  exists (<[a := o1]> h), o1.
  pose proof (heap_lookup_insert _ _ _ o1 Ha) as Ha1.
  split.
  { rewrite (Add_run _ _ _ _ Ha Hne), decide_False by (intros ?; congruence).
    by rewrite Hh, Hk. }
  do 2 (split; [done|]). unfold o1 at 1 2. simpl m.
  split; [by rewrite assign_list|]. split; [by rewrite assign_list|].
  split; [intros x; apply entry_assign_list|]. split.
  - rewrite (Has_accepts _ _ _ _ Ha1 Hne eq_refl Hh). do 3 f_equal.
    apply forallb_agree. intros x Hx. by apply access_assigned.
  - intros x Hx.
    assert (hashable x = true) as Hhx
      by (apply (proj1 (forallb_forall _ _) Hh); by apply list_elem_of_In).
    rewrite (Has_one _ _ _ _ Ha1 eq_refl Hhx). do 3 f_equal.
    by apply access_assigned.
Qed.

(** X16.  In a set of kind [Slice], [Remove] of items that can be hashed
    returns no error and takes out the items that equal themselves; an entry
    that does not equal itself stays.  [Has] then answers false for each of
    the items.  When none of the items was found in the set the heap is as it
    was; when moreover every item equals itself, [Remove] undoes an [Add] of
    the same items. *)
Theorem Remove_takes_the_items_out h a o items :
  h !! a = Some o → kind o = reflect.Slice → items ≠ [] →
  forallb hashable items = true →
  ∃ h1,
    Remove (loc a) items h = Ok (None, h1) ∧
    h1 !! a =
      Some (mkSet (mkMap (keys (m o) ∖ found items) (loose (m o))) (kind o)) ∧
    (∀ x, x ∈ items → Has (loc a) [x] h1 = Ok ((false, None), h1)) ∧
    ((∀ x, x ∈ items → x ∉ keys (m o)) → h1 = h) ∧
    ((∀ x, x ∈ items → x ∉ keys (m o)) → forallb reflexive items = true →
     ∃ h2, Add (loc a) items h = Ok (None, h2) ∧
           Remove (loc a) items h2 = Ok (None, h)).
Proof.
  intros Ha Hk Hne Hh.
  exists (<[a := mkSet (fold_left map_delete items (m o)) (kind o)]> h).
  pose proof (heap_lookup_insert _ _ _
    (mkSet (fold_left map_delete items (m o)) (kind o)) Ha) as Ha1.
  split.
  { rewrite (Remove_run _ _ _ _ Ha Hne), decide_False by (intros ?; congruence).
    by rewrite Hh. }
  split; [by rewrite Ha1, delete_list|]. split; [|split].
  - intros x Hx.
    assert (hashable x = true) as Hhx
      by (apply (proj1 (forallb_forall _ _) Hh); by apply list_elem_of_In).
    rewrite (Has_one _ _ _ _ Ha1 Hk Hhx). do 3 f_equal.
    by apply access_deleted.
  - intros Hout. rewrite delete_list.
    assert (keys (m o) ∖ found items = keys (m o)) as ->.
    { apply set_eq. intros x. rewrite elem_of_difference, elem_of_found.
      naive_solver. }
    by rewrite gomap_eta, Set_eta, heap_insert_same.
  - intros Hout Hr.
    exists (<[a := mkSet (fold_left map_assign items (m o)) (kind o)]> h). split.
    { rewrite (Add_run _ _ _ _ Ha Hne), decide_False by (intros ?; congruence).
      by rewrite Hh. }
    rewrite (Remove_run _ _ _ _ (heap_lookup_insert _ _ _
               (mkSet (fold_left map_assign items (m o)) (kind o)) Ha) Hne).
    simpl kind. rewrite decide_False by (intros ?; congruence). rewrite Hh.
    rewrite list_insert_insert_eq. simpl m.
    rewrite assign_list, delete_list. simpl. rewrite (unfound_empty _ Hr).
    assert ((found items ∪ keys (m o)) ∖ found items = keys (m o)) as ->.
    { apply set_eq. intros x.
      rewrite elem_of_difference, elem_of_union, elem_of_found. naive_solver. }
    rewrite left_id_L by apply _.
    by rewrite gomap_eta, Set_eta, heap_insert_same.
Qed.

(** X17.  [Remove] is idempotent: when a call returns, the same call made
    again returns the same result and leaves the heap as the first call left
    it.  So is [Add] of items that all equal themselves. *)
Theorem Add_and_Remove_are_idempotent s items h :
  (∀ r h1, Remove s items h = Ok (r, h1) → Remove s items h1 = Ok (r, h1)) ∧
  (forallb reflexive items = true →
   ∀ r h1, Add s items h = Ok (r, h1) → Add s items h1 = Ok (r, h1)).
Proof.
  destruct (decide (items = [])) as [->|Hne].
  { split; [|intros _]; intros r h1; [rewrite !Remove_nil|rewrite !Add_nil];
      congruence. }
  destruct s as [|a].
  { split; [|intros _]; intros r h1; unfold Add, Remove;
      (case_decide as Hlen; [by destruct items|]); done. }
  destruct (h !! a) as [o|] eqn:Ha.
  2:{ split; [|intros _]; intros r h1; unfold Add, Remove;
        (case_decide as Hlen; [by destruct items|]);
        unfold bind; simpl; unfold bind, deref; by rewrite Ha. }
  split; [|intros Hr]; intros r h1.
  - rewrite (Remove_run _ _ _ _ Ha Hne).
    case_decide as Hk.
    { intros [= <- <-]. rewrite (Remove_run _ _ _ _ Ha Hne).
      by rewrite decide_True. }
    destruct (forallb hashable items) eqn:Hh; [|done].
    intros [= <- <-].
    rewrite (Remove_run _ _ _ _ (heap_lookup_insert _ _ _ _ Ha) Hne).
    cbn [kind]. rewrite decide_False by (intros Hn; by apply Hn). rewrite Hh.
    rewrite list_insert_insert_eq. do 4 f_equal. cbn [m].
    rewrite !delete_list. cbn [keys loose].
    apply gomap_eq; cbn [keys loose]; [set_solver|done].
  - rewrite (Add_run _ _ _ _ Ha Hne).
    case_decide as Hk.
    { intros [= <- <-]. rewrite (Add_run _ _ _ _ Ha Hne).
      by rewrite decide_True. }
    destruct (forallb hashable items) eqn:Hh; [|done].
    intros [= <- <-].
    rewrite (Add_run _ _ _ _ (heap_lookup_insert _ _ _ _ Ha) Hne).
    cbn [kind]. rewrite decide_False by (intros Hn; by apply Hn). rewrite Hh.
    rewrite list_insert_insert_eq. do 4 f_equal. cbn [m].
    rewrite !assign_list. cbn [keys loose]. rewrite (unfound_empty _ Hr).
    apply gomap_eq; cbn [keys loose]; [set_solver|multiset_solver].
Qed.

Lemma typecheck_cons h a o x l :
  h !! a = Some o →
  typecheck (loc a) (x :: l) h =
    match KindOf x with
    | None => Panic
    | Some k =>
        if decide (k ≠ kind o) then Ok (Some (TypeViolation k (kind o)), h)
        else typecheck (loc a) l h
    end.
Proof.
  intros Ha. simpl. destruct (KindOf x) as [k|]; [|done].
  bind_with (deref_loc _ _ _ Ha). by case_decide.
Qed.

Lemma typecheck_prefix h a o pre rest :
  h !! a = Some o → Forall (λ y, KindOf y = Some (kind o)) pre →
  typecheck (loc a) (pre ++ rest) h = typecheck (loc a) rest h.
Proof.
  intros Ha. induction 1 as [|y pre Hy _ IH]; [done|].
  rewrite <- app_comm_cons, (typecheck_cons _ _ _ _ _ Ha), Hy.
  by rewrite decide_False by (intros Hn; by apply Hn).
Qed.

(** X19.  [typecheck] returns nil exactly when every item has the kind of the
    set.  Otherwise it stops at the first item that has not: it returns the
    error naming that item's kind, or panics if that item is the nil
    interface. *)
Theorem typecheck_accepts_exactly_the_kind h a o items :
  h !! a = Some o →
  (typecheck (loc a) items h = Ok (None, h) ↔
   Forall (λ x, KindOf x = Some (kind o)) items) ∧
  (∀ pre x post k,
     items = pre ++ x :: post →
     Forall (λ y, KindOf y = Some (kind o)) pre →
     KindOf x = Some k → k ≠ kind o →
     typecheck (loc a) items h = Ok (Some (TypeViolation k (kind o)), h)) ∧
  (∀ pre x post,
     items = pre ++ x :: post →
     Forall (λ y, KindOf y = Some (kind o)) pre →
     KindOf x = None →
     typecheck (loc a) items h = Panic).
Proof.
  intros Ha. split; [split|split].
  - induction items as [|x l IH]; [constructor|].
    rewrite (typecheck_cons _ _ _ _ _ Ha).
    destruct (KindOf x) as [k|] eqn:Hx; [|done].
    case_decide as Hk; [done|]. intros Hl. constructor; [|by apply IH].
    rewrite Hx. f_equal. destruct (decide (k = kind o)); [done|tauto].
  - intros HF. rewrite <- (app_nil_r items).
    by rewrite (typecheck_prefix _ _ _ _ _ Ha HF).
  - intros pre x post k -> Hpre Hx Hk.
    rewrite (typecheck_prefix _ _ _ _ _ Ha Hpre), (typecheck_cons _ _ _ _ _ Ha), Hx.
    by rewrite decide_True.
  - intros pre x post -> Hpre Hx.
    by rewrite (typecheck_prefix _ _ _ _ _ Ha Hpre), (typecheck_cons _ _ _ _ _ Ha), Hx.
Qed.

(** X20.  [Add], [Remove] and [Has] return an error only from the check of
    the argument slice: the receiver is then a set of a kind other than
    [Slice], the call was given an item, and the error is that of a value of
    kind [Slice] offered to the set.  The heap is as it was: nothing was
    written; and [Has] answers false. *)
Theorem errors_leave_the_heap_unchanged s items h :
  let rejected e h' :=
    h' = h ∧ items ≠ [] ∧
    ∃ a o, s = loc a ∧ h !! a = Some o ∧ kind o ≠ reflect.Slice ∧
           e = TypeViolation reflect.Slice (kind o) in
  (∀ e h', Add s items h = Ok (Some e, h') → rejected e h') ∧
  (∀ e h', Remove s items h = Ok (Some e, h') → rejected e h') ∧
  (∀ b e h', Has s items h = Ok ((b, Some e), h') → b = false ∧ rejected e h').
Proof.
  intros rejected. unfold rejected.
  destruct (decide (items = [])) as [->|Hne]; [done|].
  destruct s as [|a].
  { split; [|split]; intros; exfalso; unfold Add, Remove, Has in *;
      (case_decide as Hlen; [by destruct items|]); done. }
  destruct (h !! a) as [o|] eqn:Ha.
  2:{ split; [|split]; intros; exfalso; unfold Add, Remove, Has in *;
        (case_decide as Hlen; [by destruct items|]);
        unfold bind in *; simpl in *; unfold bind, deref in *;
        by rewrite Ha in *. }
  destruct (decide (kind o = reflect.Slice)) as [Hk|Hk].
  - split; [|split]; intros; exfalso.
    + rewrite (Add_run _ _ _ _ Ha Hne), decide_False in H
        by (intros ?; congruence).
      by destruct (forallb hashable items).
    + rewrite (Remove_run _ _ _ _ Ha Hne), decide_False in H
        by (intros ?; congruence).
      by destruct (forallb hashable items).
    + unfold Has in H. case_decide as Hlen; [by destruct items|].
      unfold bind at 1 in H. rewrite (typecheck_slice _ _ _ _ Ha) in H.
      rewrite decide_False in H by (intros ?; congruence).
      by apply bind_inv in H as (? & ? & _ & [=]).
  - split; [|split].
    + intros e h'. rewrite (Add_rejects _ _ _ _ Ha Hne Hk). intros [= <- <-].
      do 2 (split; [done|]). by exists a, o.
    + intros e h'. rewrite (Remove_rejects _ _ _ _ Ha Hne Hk). intros [= <- <-].
      do 2 (split; [done|]). by exists a, o.
    + intros b e h'. rewrite (Has_rejects _ _ _ _ Ha Hne Hk).
      intros [= <- <- <-]. do 3 (split; [done|]). by exists a, o.
Qed.

(** X22.  A set of kind [Slice] cannot be handed a value that cannot be
    hashed, such as a slice: [Add] and [Remove] with such an item among the
    items panic, as does [Has] asked about it and [New] given it. *)
Theorem Slice_set_panics_on_unhashable_item h a o items x :
  h !! a = Some o → kind o = reflect.Slice →
  x ∈ items → hashable x = false →
  Add (loc a) items h = Panic ∧
  Remove (loc a) items h = Panic ∧
  Has (loc a) [x] h = Panic ∧
  New reflect.Slice items h = Panic.
Proof.
  intros Ha Hk Hx Hhx.
  assert (items ≠ []) as Hne by (intros ->; by apply elem_of_nil in Hx).
  assert (forallb hashable items = false) as Hh.
  { destruct (forallb hashable items) eqn:E; [|done].
    rewrite (proj1 (forallb_forall _ _) E x) in Hhx; [done|].
    by apply list_elem_of_In. }
  split; [|split; [|split]].
  - rewrite (Add_run _ _ _ _ Ha Hne), decide_False by (intros ?; congruence).
    by rewrite Hh.
  - rewrite (Remove_run _ _ _ _ Ha Hne), decide_False by (intros ?; congruence).
    by rewrite Hh.
  - unfold Has. rewrite decide_False by done.
    bind_with (typecheck_slice _ _ _ [x] Ha).
    rewrite decide_False by (intros ?; congruence).
    simpl. unfold bind at 1 2. by rewrite (mapaccess_run _ _ _ _ Ha), Hhx.
  - by apply New_slice_panics.
Qed.

(** X24.  In a set of kind [Slice], [Has] on items that can be hashed returns
    no error and leaves the heap as it was.  It answers true exactly when
    every one of the items equals itself and is a key of the map: it never
    answers true about an item that does not equal itself, whatever the set
    holds. *)
Theorem Has_is_conjunctive_in_a_Slice_set h a o items :
  h !! a = Some o → kind o = reflect.Slice → items ≠ [] →
  forallb hashable items = true →
  ∃ b, Has (loc a) items h = Ok ((b, None), h) ∧
       (b = true ↔ ∀ x, x ∈ items → reflexive x = true ∧ x ∈ keys (m o)) ∧
       (forallb reflexive items = false → b = false).
Proof.
  intros Ha Hk Hne Hh.
  exists (forallb (map_access (m o)) items).
  split; [by apply Has_accepts|].
  assert (forallb (map_access (m o)) items = true ↔
          ∀ x, x ∈ items → reflexive x = true ∧ x ∈ keys (m o)) as Hiff.
  { rewrite forallb_forall. split.
    - intros H x Hx%list_elem_of_In. by apply map_access_true, H.
    - intros H x Hx%list_elem_of_In. by apply map_access_true, H. }
  split; [done|].
  intros Hr. destruct (forallb (map_access (m o)) items) eqn:E; [|done].
  assert (forallb reflexive items = true); [|congruence].
  apply forallb_forall. intros x Hx%list_elem_of_In.
  by apply (proj1 Hiff eq_refl).
Qed.

(** X25.  In a set of kind [Slice], [Add] of one item that can be hashed
    leaves [Size] as it was when [Has] found the item before, and makes it
    one larger when [Has] did not: always so for an item that does not equal
    itself, which [Has] never finds. *)
Theorem Add_grows_Size_by_a_new_item h a o x :
  h !! a = Some o → kind o = reflect.Slice → hashable x = true →
  ∃ b h1,
    Has (loc a) [x] h = Ok ((b, None), h) ∧
    (b = true ↔ reflexive x = true ∧ x ∈ keys (m o)) ∧
    Add (loc a) [x] h = Ok (None, h1) ∧
    Size (loc a) h1 =
      Ok ((if b then map_len (m o) else S (map_len (m o))), h1).
Proof.
  intros Ha Hk Hx.
  exists (map_access (m o) x), (<[a := mkSet (map_assign (m o) x) (kind o)]> h).
  split; [by apply Has_one|]. split; [apply map_access_true|].
  split; [by apply Add_one|].
  rewrite (Size_run _ _ _ (heap_lookup_insert _ _ _
             (mkSet (map_assign (m o) x) (kind o)) Ha)).
  simpl m. by rewrite map_len_assign.
Qed.

Lemma set_inv_sub o M :
  set_inv o → keys M ⊆ keys (m o) → loose M ⊆ loose (m o) →
  set_inv (mkSet M (kind o)).
Proof.
  intros ([Hk Hl] & Hh & He) HK HL.
  assert (∀ x, x ∈ loose M → x ∈ loose (m o)) as HL'
    by (intros x Hx; by eapply gmultiset_elem_of_subseteq).
  split; [split|split]; simpl.
  - intros x Hx. apply Hk. set_solver.
  - intros x Hx. by apply Hl, HL'.
  - intros x [Hx|Hx]; apply Hh; [left; set_solver|right; by apply HL'].
  - intros Hne. rewrite (He Hne) in HK, HL. simpl in *.
    apply gomap_eq; simpl; [set_solver|multiset_solver].
Qed.

Lemma set_inv_union o o' :
  set_inv o → set_inv o' → kind o = kind o' →
  set_inv (mkSet (mkMap (keys (m o) ∪ keys (m o'))
                        (loose (m o) ⊎ loose (m o'))) (kind o)).
Proof.
  intros ([Hk Hl] & Hh & He) ([Hk' Hl'] & Hh' & He') Heq.
  split; [split|split]; simpl.
  - intros x [Hx|Hx]%elem_of_union; auto.
  - intros x [Hx|Hx]%gmultiset_elem_of_disj_union; auto.
  - intros x [[Hx|Hx]%elem_of_union|[Hx|Hx]%gmultiset_elem_of_disj_union];
      [apply Hh; by left|apply Hh'; by left|apply Hh; by right|apply Hh'; by right].
  - intros Hne. rewrite (He Hne), He' by congruence. simpl.
    apply gomap_eq; simpl; [set_solver|multiset_solver].
Qed.

Lemma map_len_equal (M N : gomap) :
  map_len M = map_len N →
  map_len M = size (keys M ∪ keys N) + size (loose M ⊎ loose N) ↔
  M = N ∧ loose M = ∅.
Proof.
  unfold map_len. rewrite gmultiset_size_disj_union. intros Hlen. split.
  - intros Hu.
    assert (size (keys M) ≤ size (keys M ∪ keys N))
      by (apply subseteq_size; set_solver).
    assert (size (loose N) = 0) as HN by lia.
    assert (keys M = keys M ∪ keys N) as HK
      by (apply set_subseteq_size_eq; [set_solver|lia]).
    assert (size (keys N) ≤ size (keys M))
      by (apply subseteq_size; set_solver).
    assert (size (loose M) = 0) as HM by lia.
    apply gmultiset_size_empty_inv in HN, HM.
    split; [|done]. apply gomap_eq; [|congruence].
    symmetry. apply set_subseteq_size_eq; [set_solver|lia].
  - intros [<- ->]. rewrite union_idemp_L, gmultiset_size_empty. lia.
Qed.

(** ** The methods that iterate, on sets that satisfy the invariant *)

Section laws.

Variable order : gomap → list value.
Hypothesis order_perm : ∀ M, order M ≡ₚ map_entries M.

Lemma order_entry M x : x ∈ order M ↔ entry x M.
Proof.
  rewrite order_perm. unfold map_entries, entry.
  by rewrite elem_of_app, elem_of_elements, gmultiset_elem_of_elements.
Qed.

Lemma found_order M : map_wf M → found (order M) = keys M.
Proof.
  intros HM. rewrite <- (found_entries M HM). unfold found.
  apply set_eq. intros x.
  by rewrite !elem_of_list_to_set, !list_elem_of_filter, order_perm.
Qed.

Lemma unfound_order M : map_wf M → unfound (order M) = loose M.
Proof.
  intros HM. rewrite <- (unfound_entries M HM). unfold unfound.
  by rewrite order_perm.
Qed.

Lemma order_make : order map_make = [].
Proof.
  apply Permutation_nil. symmetry. rewrite order_perm. unfold map_entries. simpl.
  by rewrite elements_empty, gmultiset_elements_empty.
Qed.

Lemma order_hashable o : set_inv o → forallb hashable (order (m o)) = true.
Proof.
  intros (_ & Hh & _). apply forallb_forall. intros x Hx.
  apply Hh, order_entry. by apply list_elem_of_In.
Qed.

Lemma order_admitted o k :
  set_inv o → kind o = k → k = reflect.Slice ∨ order (m o) = [].
Proof.
  intros (_ & _ & He) <-.
  destruct (decide (kind o = reflect.Slice)) as [|Hne]; [by left|].
  right. rewrite (He Hne). apply order_make.
Qed.

Lemma order_forall M (P : value → bool) :
  forallb P (order M) = true ↔ ∀ x, entry x M → P x = true.
Proof.
  rewrite forallb_forall. split.
  - intros H x Hx. by apply H, list_elem_of_In, order_entry.
  - intros H x Hx. by apply H, order_entry, list_elem_of_In.
Qed.

(** Assigning every entry of one map into another. *)
Lemma assign_order M N :
  map_wf M →
  fold_left map_assign (order M) N =
    mkMap (keys M ∪ keys N) (loose M ⊎ loose N).
Proof.
  intros HM. by rewrite assign_list, (found_order M HM), (unfound_order M HM).
Qed.

(** Assigning the entries of one map that another has. *)
Lemma assign_order_present M T N :
  map_wf M →
  fold_left map_assign (filter (λ x, map_access T x = true) (order M)) N =
    mkMap ((keys M ∩ keys T) ∪ keys N) (loose N).
Proof.
  intros HM. rewrite assign_list. apply gomap_eq; simpl.
  - f_equal. apply set_eq. intros x.
    rewrite elem_of_found, list_elem_of_filter, order_entry, map_access_true,
      elem_of_intersection.
    destruct HM as [Hk Hl]. split.
    + intros (Hx & [_ HT] & [HM|HM]); [done|]. by rewrite (Hl x HM) in Hx.
    + intros [HM HT]. pose proof (Hk x HM). repeat split; try done. by left.
  - assert (unfound (filter (λ x, map_access T x = true) (order M)) = ∅) as ->;
      [|by rewrite left_id_L by apply _].
    unfold unfound. rewrite (elem_of_nil_inv (filter _ (filter _ _))); [done|].
    intros x [Hx [[Hr _]%map_access_true _]%list_elem_of_filter]%list_elem_of_filter.
    congruence.
Qed.

(** Assigning the entries of one map that another has not. *)
Lemma assign_order_absent M T N :
  map_wf M →
  fold_left map_assign
    (filter (λ x, negb (map_access T x) = true) (order M)) N =
    mkMap ((keys M ∖ keys T) ∪ keys N) (loose M ⊎ loose N).
Proof.
  intros HM. rewrite assign_list. apply gomap_eq; simpl.
  - f_equal. apply set_eq. intros x.
    rewrite elem_of_found, list_elem_of_filter, order_entry, negb_true_iff,
      elem_of_difference.
    destruct HM as [Hk Hl]. split.
    + intros (Hx & HT & [HM|HM]); [|by rewrite (Hl x HM) in Hx].
      split; [done|]. intros HxT.
      assert (map_access T x = true) by (by apply map_access_true). congruence.
    + intros [HM HT]. pose proof (Hk x HM) as Hr. split; [done|].
      split; [|by left].
      destruct (map_access T x) eqn:E; [|done].
      apply map_access_true in E as [_ ?]. done.
  - f_equal. rewrite <- (unfound_order M HM). unfold unfound. f_equal.
    apply list_filter_filter_l. intros x Hx. unfold map_access.
    by rewrite Hx.
Qed.

Lemma List_run h a o : h !! a = Some o → List order (loc a) h = Ok (order (m o), h).
Proof. intros Ha. unfold List. by bind_with (deref_loc _ _ _ Ha). Qed.

Lemma assign_order_make M : map_wf M → fold_left map_assign (order M) map_make = M.
Proof.
  intros HM. rewrite (assign_order M map_make HM). simpl.
  apply gomap_eq; simpl; [set_solver|multiset_solver].
Qed.

Lemma Copy_run h a o :
  h !! a = Some o → set_inv o →
  Copy order (loc a) h = Ok (loc (length h), h ++ [o]).
Proof.
  intros Ha Ho. unfold Copy.
  bind_with (deref_loc _ _ _ Ha). bind_with (List_run _ _ _ Ha).
  rewrite New_admitted; eauto using order_admitted, order_hashable.
  rewrite assign_order_make by apply Ho. by rewrite Set_eta.
Qed.

Lemma Union_run h a b so to :
  h !! a = Some so → h !! b = Some to → kind so = kind to →
  set_inv so → set_inv to →
  Union order (loc a) (loc b) h =
    Ok ((loc (length h), None),
        h ++ [mkSet (mkMap (keys (m so) ∪ keys (m to))
                           (loose (m so) ⊎ loose (m to))) (kind so)]).
Proof.
  intros Ha Hb Hk Hsa Hsb. unfold Union.
  bind_with (typematch_run _ _ _ _ _ Ha Hb). case_decide; [done|].
  bind_with (deref_loc _ _ _ Ha). bind_with (List_run _ _ _ Hb).
  bind_with (New_admitted (kind so) (order (m to)) h
               (order_admitted _ _ Hsb (eq_sym Hk)) (order_hashable _ Hsb)).
  rewrite (assign_order_make (m to)) by apply Hsb.
  bind_with (List_run _ _ _ (heap_lookup_old _ _ _ (mkSet (m to) (kind so)) Ha)).
  bind_with (add_each (order (m so)) _ _ (mkSet (m to) (kind so))
               (heap_lookup_alloc h _)
               (order_admitted _ _ Hsa eq_refl) (order_hashable _ Hsa)).
  unfold ret. simpl. rewrite heap_insert_alloc.
  by rewrite (assign_order (m so)) by apply Hsa.
Qed.

Lemma Difference_run h a b so to :
  h !! a = Some so → h !! b = Some to → kind so = kind to →
  set_inv so → set_inv to →
  Difference order (loc a) (loc b) h =
    Ok ((loc (length h), None),
        h ++ [mkSet (mkMap (keys (m so) ∖ keys (m to)) (loose (m so)))
                    (kind so)]).
Proof.
  intros Ha Hb Hk Hsa Hsb. unfold Difference.
  bind_with (typematch_run _ _ _ _ _ Ha Hb). case_decide; [done|].
  bind_with (deref_loc _ _ _ Ha). bind_with (New_empty (kind so) h).
  bind_with (List_run _ _ _ (heap_lookup_old _ _ _ (mkSet map_make (kind so)) Ha)).
  assert (b ≠ length h) as Hbc by (apply lookup_lt_Some in Hb; lia).
  assert ((kind to = reflect.Slice ∧ kind (mkSet map_make (kind so)) = reflect.Slice)
          ∨ order (m so) = []) as Hadm.
  { destruct (order_admitted _ _ Hsa eq_refl) as [?|?]; [left|by right].
    simpl. split; congruence. }
  bind_with (add_filtered negb (order (m so)) _ _ _ _ _
               (heap_lookup_old _ _ _ (mkSet map_make (kind so)) Hb)
               (heap_lookup_alloc h _) Hbc Hadm (order_hashable _ Hsa)).
  unfold ret. simpl. rewrite heap_insert_alloc.
  rewrite (assign_order_absent (m so)) by apply Hsa. simpl.
  do 5 f_equal. apply gomap_eq; simpl; [set_solver|multiset_solver].
Qed.

Lemma Intersection_run h a b so to :
  h !! a = Some so → h !! b = Some to → kind so = kind to →
  set_inv so → set_inv to →
  Intersection order (loc a) (loc b) h =
    Ok ((loc (length h), None),
        h ++ [mkSet (mkMap (keys (m so) ∩ keys (m to)) ∅) (kind so)]).
Proof.
  intros Ha Hb Hk Hsa Hsb. unfold Intersection.
  bind_with (typematch_run _ _ _ _ _ Ha Hb). case_decide; [done|].
  bind_with (deref_loc _ _ _ Ha). bind_with (New_empty (kind so) h).
  bind_with (List_run _ _ _ (heap_lookup_old _ _ _ (mkSet map_make (kind so)) Ha)).
  assert (a ≠ length h) as Hac by (apply lookup_lt_Some in Ha; lia).
  assert (b ≠ length h) as Hbc by (apply lookup_lt_Some in Hb; lia).
  assert (∀ X, (kind to = reflect.Slice ∧ kind (mkSet X (kind so)) = reflect.Slice)
          ∨ order (m so) = []) as Hadm.
  { intros X. destruct (order_admitted _ _ Hsa eq_refl) as [?|?]; [left|by right].
    simpl. split; congruence. }
  assert (∀ X, (kind so = reflect.Slice ∧ kind (mkSet X (kind so)) = reflect.Slice)
          ∨ order (m to) = []) as Hadm'.
  { intros X. destruct (order_admitted _ _ Hsb (eq_sym Hk)) as [?|?]; [left|by right].
    simpl. split; congruence. }
  bind_with (add_filtered (λ ok, ok) (order (m so)) _ _ _ _ _
               (heap_lookup_old _ _ _ (mkSet map_make (kind so)) Hb)
               (heap_lookup_alloc h _) Hbc (Hadm _) (order_hashable _ Hsa)).
  rewrite heap_insert_alloc. simpl m. simpl kind.
  rewrite (assign_order_present (m so)) by apply Hsa.
  match goal with |- context [h ++ [?o]] => set (uo := o) end.
  bind_with (List_run _ _ _ (heap_lookup_old _ _ _ uo Hb)).
  bind_with (add_filtered (λ ok, ok) (order (m to)) _ _ _ _ _
               (heap_lookup_old _ _ _ uo Ha)
               (heap_lookup_alloc h _) Hac (Hadm' _) (order_hashable _ Hsb)).
  unfold ret, uo. simpl. rewrite heap_insert_alloc.
  rewrite (assign_order_present (m to)) by apply Hsb. simpl.
  do 5 f_equal. apply gomap_eq; simpl; [set_solver|done].
Qed.

Lemma IsSubset_run h a b so to :
  h !! a = Some so → h !! b = Some to → kind so = kind to →
  set_inv so → set_inv to →
  IsSubset order (loc a) (loc b) h =
    Ok ((bool_decide (loose (m to) = ∅ ∧ keys (m to) ⊆ keys (m so)), None), h).
Proof.
  intros Ha Hb Hk Hsa Hsb. unfold IsSubset.
  bind_with (typematch_run _ _ _ _ _ Ha Hb). case_decide; [done|].
  bind_with (List_run _ _ _ Hb).
  bind_with (has_each (order (m to)) _ _ _ Ha
               (order_admitted _ _ Hsb (eq_sym Hk)) (order_hashable _ Hsb)).
  unfold ret. do 3 f_equal.
  destruct Hsb as ([Hkt Hlt] & _).
  destruct (forallb _ _) eqn:E; symmetry.
  - apply bool_decide_eq_true. pose proof (proj1 (order_forall _ _) E) as Hall.
    split.
    + apply gmultiset_size_empty_inv.
      destruct (size (loose (m to))) eqn:Es; [done|].
      destruct (gmultiset_size_pos_elem_of (loose (m to))) as [x Hx]; [lia|].
      assert (map_access (m so) x = true) as [Hr _]%map_access_true
        by (apply Hall; by right).
      by rewrite (Hlt x Hx) in Hr.
    + intros x Hx. by apply (map_access_true (m so) x), Hall; left.
  - apply bool_decide_eq_false. intros [He Hsub].
    assert (forallb (map_access (m so)) (order (m to)) = true); [|congruence].
    apply order_forall. intros x [Hx|Hx].
    + apply map_access_true. split; [by apply Hkt|by apply Hsub].
    + rewrite He in Hx. multiset_solver.
Qed.

Lemma Merge_run h a b so to :
  h !! a = Some so → h !! b = Some to → kind so = kind to →
  set_inv so → set_inv to →
  Merge order (loc a) (loc b) h =
    Ok (None, <[a := mkSet (mkMap (keys (m so) ∪ keys (m to))
                                  (loose (m so) ⊎ loose (m to))) (kind so)]> h).
Proof.
  intros Ha Hb Hk Hsa Hsb. unfold Merge.
  bind_with (typematch_run _ _ _ _ _ Ha Hb). case_decide; [done|].
  bind_with (List_run _ _ _ Hb).
  bind_with (add_each (order (m to)) _ _ _ Ha
               (order_admitted _ _ Hsb (eq_sym Hk)) (order_hashable _ Hsb)).
  unfold ret. rewrite (assign_order (m to)) by apply Hsb.
  do 4 f_equal. apply gomap_eq; simpl; [set_solver|multiset_solver].
Qed.

Lemma Separate_run h a b so to :
  h !! a = Some so → h !! b = Some to → kind so = kind to →
  set_inv so → set_inv to →
  Separate order (loc a) (loc b) h =
    Ok (None, <[a := mkSet (mkMap (keys (m so) ∖ keys (m to)) (loose (m so)))
                           (kind so)]> h).
Proof.
  intros Ha Hb Hk Hsa Hsb. unfold Separate.
  bind_with (typematch_run _ _ _ _ _ Ha Hb). case_decide; [done|].
  bind_with (List_run _ _ _ Hb).
  bind_with (remove_each (order (m to)) _ _ _ Ha
               (order_admitted _ _ Hsb (eq_sym Hk)) (order_hashable _ Hsb)).
  unfold ret. by rewrite delete_list, (found_order (m to)) by apply Hsb.
Qed.

Lemma IsEqual_run h a b so to :
  h !! a = Some so → h !! b = Some to → kind so = kind to →
  set_inv so → set_inv to →
  IsEqual order (loc a) (loc b) h =
    if decide (map_len (m so) ≠ map_len (m to)) then Ok ((false, None), h)
    else Ok ((bool_decide (m so = m to ∧ loose (m so) = ∅), None),
             h ++ [mkSet (mkMap (keys (m so) ∪ keys (m to))
                                (loose (m so) ⊎ loose (m to))) (kind so)]).
Proof.
  intros Ha Hb Hk Hsa Hsb. unfold IsEqual.
  bind_with (typematch_run _ _ _ _ _ Ha Hb). case_decide; [done|].
  bind_with (Size_run _ _ _ Ha). bind_with (Size_run _ _ _ Hb).
  case_decide as Hsz; [done|].
  bind_with (Union_run _ _ _ _ _ Ha Hb Hk Hsa Hsb). simpl fst.
  match goal with |- context [h ++ [?o]] => set (uo := o) end.
  bind_with (Size_run _ _ _ (heap_lookup_old _ _ _ uo Ha)).
  bind_with (Size_run _ _ _ (heap_lookup_alloc h uo)).
  unfold ret.
  assert (map_len (m so) = map_len (m to)) as Hsz'
    by (destruct (decide (map_len (m so) = map_len (m to))); [done|tauto]).
  pose proof (map_len_equal _ _ Hsz') as Hiff.
  case_decide as Hu.
  - rewrite bool_decide_eq_false_2; [done|]. intros Heq. apply Hu, Hiff, Heq.
  - rewrite bool_decide_eq_true_2; [done|]. apply Hiff.
    destruct (decide (map_len (m so) = map_len (m uo))); [done|tauto].
Qed.

Lemma SymmetricDifference_spec_run h a b so to :
  h !! a = Some so → h !! b = Some to → kind so = kind to →
  set_inv so → set_inv to →
  SymmetricDifference_spec order (loc a) (loc b) h =
    Ok ((loc (length h + 2), None),
        h ++ [mkSet (mkMap (keys (m so) ∖ keys (m to)) (loose (m so))) (kind so);
              mkSet (mkMap (keys (m to) ∖ keys (m so)) (loose (m to))) (kind to);
              mkSet (mkMap ((keys (m so) ∖ keys (m to)) ∪
                            (keys (m to) ∖ keys (m so)))
                           (loose (m so) ⊎ loose (m to))) (kind so)]).
Proof.
  intros Ha Hb Hk Hsa Hsb. unfold SymmetricDifference_spec.
  bind_with (Difference_run _ _ _ _ _ Ha Hb Hk Hsa Hsb). simpl fst.
  set (du := mkSet (mkMap (keys (m so) ∖ keys (m to)) (loose (m so))) (kind so)).
  bind_with (Difference_run _ _ _ _ _ (heap_lookup_old _ _ _ du Hb)
               (heap_lookup_old _ _ _ du Ha) (eq_sym Hk) Hsb Hsa). simpl fst.
  set (dv := mkSet (mkMap (keys (m to) ∖ keys (m so)) (loose (m to))) (kind to)).
  assert (set_inv du) as Hdu by (apply (set_inv_sub so); simpl; [done|set_solver|done]).
  assert (set_inv dv) as Hdv by (apply (set_inv_sub to); simpl; [done|set_solver|done]).
  rewrite (Union_run ((h ++ [du]) ++ [dv]) (length h) (length (h ++ [du])) du dv);
    [|apply heap_lookup_old, heap_lookup_alloc|apply heap_lookup_alloc|done..].
  rewrite !length_app. simpl. rewrite <- !app_assoc. simpl.
  by replace (length h + 1 + 1) with (length h + 2) by lia.
Qed.

Lemma SymmetricDifference_run h a b so to :
  h !! a = Some so → h !! b = Some to → kind so = kind to →
  set_inv so → set_inv to →
  SymmetricDifference order (loc a) (loc b) h =
    Ok ((loc (length h + 2), None),
        h ++ [mkSet (mkMap (keys (m so) ∖ keys (m to)) (loose (m so))) (kind so);
              mkSet (mkMap (keys (m to) ∖ keys (m so)) (loose (m to))) (kind to);
              mkSet (mkMap ((keys (m so) ∖ keys (m to)) ∪
                            (keys (m to) ∖ keys (m so)))
                           (loose (m so) ⊎ loose (m to))) (kind so)]).
Proof.
  intros Ha Hb Hk Hsa Hsb.
  pose proof (SymmetricDifference_spec_run _ _ _ _ _ Ha Hb Hk Hsa Hsb) as Hspec.
  unfold SymmetricDifference_spec in Hspec. unfold SymmetricDifference.
  bind_with (typematch_run _ _ _ _ _ Ha Hb). case_decide; [done|].
  apply bind_inv in Hspec as ([u eu] & h1 & Hu & Hspec). bind_with Hu.
  apply bind_inv in Hspec as ([v ev] & h2 & Hv & Hspec). bind_with Hv.
  by bind_with Hspec.
Qed.

Lemma IsSubset_answer h a b so to :
  h !! a = Some so → h !! b = Some to → kind so = kind to →
  set_inv so → set_inv to →
  IsSubset order (loc a) (loc b) h =
    Ok ((bool_decide (selfequal (m to) ∧ keys (m to) ⊆ keys (m so)), None), h).
Proof.
  intros Ha Hb Hk Hsa Hsb. rewrite (IsSubset_run _ _ _ _ _ Ha Hb Hk Hsa Hsb).
  do 3 f_equal. apply bool_decide_ext.
  by rewrite (selfequal_loose (m to)) by apply Hsb.
Qed.

Lemma IsEqual_answer h a b so to :
  h !! a = Some so → h !! b = Some to → kind so = kind to →
  set_inv so → set_inv to →
  IsEqual order (loc a) (loc b) h =
    Ok ((bool_decide (keys (m so) = keys (m to) ∧
                      selfequal (m so) ∧ selfequal (m to)), None),
        if decide (map_len (m so) = map_len (m to))
        then h ++ [mkSet (mkMap (keys (m so) ∪ keys (m to))
                                (loose (m so) ⊎ loose (m to))) (kind so)]
        else h).
Proof.
  intros Ha Hb Hk Hsa Hsb. rewrite (IsEqual_run _ _ _ _ _ Ha Hb Hk Hsa Hsb).
  assert ((m so = m to ∧ loose (m so) = ∅) ↔
          (keys (m so) = keys (m to) ∧ selfequal (m so) ∧ selfequal (m to)))
    as Hiff.
  { rewrite (selfequal_loose (m so)), (selfequal_loose (m to))
      by (apply Hsa || apply Hsb).
    split.
    - intros [Heq He]. rewrite <- Heq. done.
    - intros (HK & H1 & H2). split; [|done]. apply gomap_eq; congruence. }
  case_decide as Hsz.
  - rewrite decide_False by done. do 3 f_equal. symmetry.
    apply bool_decide_eq_false. intros H%Hiff. destruct H as [Heq _].
    by rewrite Heq in Hsz.
  - rewrite decide_True by (destruct (decide (map_len (m so) = map_len (m to)));
      [done|tauto]).
    do 3 f_equal. by apply bool_decide_ext.
Qed.

Lemma StringSlice_run h a o :
  h !! a = Some o →
  StringSlice order (loc a) h = Ok (omap as_string (order (m o)), h).
Proof.
  intros Ha. unfold StringSlice. bind_with (List_run _ _ _ Ha).
  unfold ret. by rewrite collect_omap.
Qed.

Lemma IntSlice_run h a o :
  h !! a = Some o →
  IntSlice order (loc a) h = Ok (omap as_int (order (m o)), h).
Proof.
  intros Ha. unfold IntSlice. bind_with (List_run _ _ _ Ha).
  unfold ret. by rewrite collect_omap.
Qed.

(** ** Every reachable heap satisfies the invariant *)

Lemma List_unchanged s : respects eq (List order s).
Proof. unfold List. resp. Qed.
#[local] Hint Resolve List_unchanged : resp.

Lemma IsSubset_unchanged s t : respects eq (IsSubset order s t).
Proof. unfold IsSubset. resp. Qed.
#[local] Hint Resolve IsSubset_unchanged : resp.

Lemma Copy_keeps s : respects keeps_inv (Copy order s).
Proof. unfold Copy. resp. Qed.

Lemma Union_keeps s t : respects keeps_inv (Union order s t).
Proof. unfold Union. resp. Qed.
#[local] Hint Resolve Copy_keeps Union_keeps : resp.

Lemma IsEqual_keeps s t : respects keeps_inv (IsEqual order s t).
Proof. unfold IsEqual. resp. Qed.

Lemma Merge_keeps s t : respects keeps_inv (Merge order s t).
Proof. unfold Merge. resp. Qed.

Lemma Separate_keeps s t : respects keeps_inv (Separate order s t).
Proof. unfold Separate. resp. Qed.

Lemma Intersection_keeps s t : respects keeps_inv (Intersection order s t).
Proof. unfold Intersection. resp. Qed.

Lemma Difference_keeps s t : respects keeps_inv (Difference order s t).
Proof. unfold Difference. resp. Qed.
#[local] Hint Resolve IsEqual_keeps Merge_keeps Separate_keeps Intersection_keeps
  Difference_keeps : resp.

Lemma SymmetricDifference_keeps s t :
  respects keeps_inv (SymmetricDifference order s t).
Proof. unfold SymmetricDifference. resp. Qed.
#[local] Hint Resolve SymmetricDifference_keeps : resp.

Lemma exec_keeps c : respects keeps_inv (exec order c).
Proof. destruct c; unfold exec, IsSuperset; resp. Qed.

Lemma reachable_inv h : reachable order h → heap_inv h.
Proof.
  induction 1 as [|c h h' _ IH Hrun]; [constructor|].
  by apply (exec_keeps c h tt h' Hrun).
Qed.

(** ** Writes through one pointer leave the other objects alone *)

Lemma Merge_frame c t : respects (frame c) (Merge order (loc c) t).
Proof. unfold Merge. resp. Qed.

Lemma Separate_frame c t : respects (frame c) (Separate order (loc c) t).
Proof. unfold Separate. resp. Qed.

Lemma exec_keeps_kind c : respects keeps_kind (exec order c).
Proof.
  destruct c;
    unfold exec, IsSuperset, IsSubset, IsEqual, SymmetricDifference, Union,
      Intersection, Difference, Merge, Separate, Copy, New, List, IsEmpty, Size;
    resp.
Qed.

Lemma mutate_only_at c mu : respects (only_at c) (mutate order (loc c) mu).
Proof. destruct mu; unfold mutate, Merge, Separate; resp. Qed.

(** ** Claims on the binary operations and on Copy *)

(** C5.  On two sets of different kinds, each of [Union], [Intersection],
    [Difference], [SymmetricDifference], [Merge], [Separate], [IsEqual] and
    [IsSubset] returns the kind-mismatch error (with a nil set, or false,
    where it has another result), and the heap, so both operands, is as it
    was. *)
Theorem mismatched_kinds_are_rejected h a b so to :
  h !! a = Some so → h !! b = Some to → kind so ≠ kind to →
  let e := Some (KindMismatch (kind so) (kind to)) in
  Union order (loc a) (loc b) h = Ok ((nil, e), h) ∧
  Intersection order (loc a) (loc b) h = Ok ((nil, e), h) ∧
  Difference order (loc a) (loc b) h = Ok ((nil, e), h) ∧
  SymmetricDifference order (loc a) (loc b) h = Ok ((nil, e), h) ∧
  Merge order (loc a) (loc b) h = Ok (e, h) ∧
  Separate order (loc a) (loc b) h = Ok (e, h) ∧
  IsEqual order (loc a) (loc b) h = Ok ((false, e), h) ∧
  IsSubset order (loc a) (loc b) h = Ok ((false, e), h).
Proof.
  intros Ha Hb Hk e.
  unfold Union, Intersection, Difference, SymmetricDifference, Merge, Separate,
    IsEqual, IsSubset.
  rewrite !(bind_Ok _ _ _ _ _ (typematch_run _ _ _ _ _ Ha Hb)).
  by case_decide.
Qed.

(** C6 (as the code has it).  In a heap a client can build, [Copy] of a set
    returns a pointer to a new object with the same kind and the same
    entries, and no sequence of writes through the copy ([Add], [Remove],
    [Clear], [Merge], [Separate]) changes the object copied.  [IsEqual]
    between the copy and the set, whichever of the two is the receiver,
    answers whether every element of the set equals itself: true for a set
    with no NaN in it, false for one with. *)
Theorem Copy_is_independent_and_equal_without_NaN h a o :
  reachable order h → h !! a = Some o →
  ∃ c h1,
    Copy order (loc a) h = Ok (loc c, h1) ∧ c ≠ a ∧
    h1 !! a = Some o ∧ h1 !! c = Some o ∧
    result (IsEqual order (loc c) (loc a) h1) =
      Some (bool_decide (selfequal (m o)), None) ∧
    result (IsEqual order (loc a) (loc c) h1) =
      Some (bool_decide (selfequal (m o)), None) ∧
    ∀ mus h2, for_range mus (mutate order (loc c)) h1 = Ok (tt, h2) →
              h2 !! a = Some o.
Proof.
  intros Hr Ha. exists (length h), (h ++ [o]).
  pose proof (heap_inv_lookup _ _ _ (reachable_inv _ Hr) Ha) as Ho.
  pose proof (heap_lookup_old _ _ _ o Ha) as Ha'.
  pose proof (heap_lookup_alloc h o) as Hc.
  assert (length h ≠ a) as Hne by (apply lookup_lt_Some in Ha; lia).
  split; [by apply Copy_run|]. do 3 (split; [done|]).
  rewrite (IsEqual_answer _ _ _ _ _ Hc Ha' eq_refl Ho Ho).
  rewrite (IsEqual_answer _ _ _ _ _ Ha' Hc eq_refl Ho Ho).
  assert (bool_decide (keys (m o) = keys (m o) ∧ selfequal (m o) ∧ selfequal (m o))
          = bool_decide (selfequal (m o))) as ->
    by (apply bool_decide_ext; tauto).
  do 2 (split; [done|]).
  intros mus h2 Hrun.
  assert (respects (frame (length h)) (for_range mus (mutate order (loc (length h)))))
    as Hframe.
  { apply respects_for_range; [apply _|]. intros [items|items| |t|t]; simpl; resp;
      auto using Merge_frame, Separate_frame. }
  by apply (Hframe _ _ _ Hrun a o).
Qed.

(** C7 (as the code has it).  In a heap a client can build, on two sets of
    the same kind, [SymmetricDifference] returns what the union of the two
    differences returns, in the same heap: a new set of that kind.  Of the
    values that equal themselves it holds those in exactly one of the
    operands.  An entry that does not equal itself is never found in the
    other operand: the result holds every such entry of either operand, as
    often as the two operands together.  The operands are as they were. *)
Theorem SymmetricDifference_is_union_of_differences h a b so to :
  reachable order h →
  h !! a = Some so → h !! b = Some to → kind so = kind to →
  ∃ r h1 ro,
    SymmetricDifference order (loc a) (loc b) h = Ok ((loc r, None), h1) ∧
    SymmetricDifference_spec order (loc a) (loc b) h = Ok ((loc r, None), h1) ∧
    h1 !! r = Some ro ∧ kind ro = kind so ∧
    (∀ x, x ∈ keys (m ro) ↔
          (x ∈ keys (m so) ∧ x ∉ keys (m to)) ∨
          (x ∈ keys (m to) ∧ x ∉ keys (m so))) ∧
    loose (m ro) = loose (m so) ⊎ loose (m to) ∧
    (∀ x, reflexive x = true → entry x (m ro) ↔
          (entry x (m so) ∧ ¬ entry x (m to)) ∨
          (entry x (m to) ∧ ¬ entry x (m so))) ∧
    h1 !! a = Some so ∧ h1 !! b = Some to.
Proof.
  intros Hr Ha Hb Hk.
  pose proof (heap_inv_lookup _ _ _ (reachable_inv _ Hr) Ha) as Hsa.
  pose proof (heap_inv_lookup _ _ _ (reachable_inv _ Hr) Hb) as Hsb.
  eexists _, _, (mkSet (mkMap ((keys (m so) ∖ keys (m to)) ∪
                               (keys (m to) ∖ keys (m so)))
                              (loose (m so) ⊎ loose (m to))) (kind so)).
  split; [by apply SymmetricDifference_run|].
  split; [by apply SymmetricDifference_spec_run|].
  split; [|split; [done|split; [set_solver|split; [done|split]]]].
  - rewrite lookup_app_r by lia. by replace (length h + 2 - length h) with 2 by lia.
  - intros x Hx. destruct Hsa as ([_ Hla] & _), Hsb as ([_ Hlb] & _).
    assert (∀ M, (∀ y, y ∈ loose M → reflexive y = false) →
                 entry x M ↔ x ∈ keys M) as Hent.
    { intros M HM. unfold entry. split; [|by left].
      intros [?|Hl]; [done|]. apply HM in Hl. congruence. }
    rewrite (Hent (m so) Hla), (Hent (m to) Hlb). unfold entry. simpl.
    rewrite gmultiset_elem_of_disj_union. split.
    + intros [Hin|[Hl|Hl]]; [set_solver|apply Hla in Hl|apply Hlb in Hl];
        congruence.
    + intros Hin. left. set_solver.
  - split; by apply lookup_app_l_Some.
Qed.

(** C8 (as the code has it).  [s.IsSubset(t)] answers whether every element
    of [t] is found in [s]: whether every element of [t] equals itself and is
    in [s].  In a heap a client can build, on two sets [A] and [B] of the same
    kind, the union as receiver has [A] as a subset when every element of [A]
    equals itself, and not otherwise; so for [B].  [A.IsSubset(Union(A,B))]
    answers true only when moreover every element of [B] is in [A]. *)
Theorem Union_has_its_operands_as_subsets h a b so to :
  reachable order h →
  h !! a = Some so → h !! b = Some to → kind so = kind to →
  IsSubset order (loc a) (loc b) h =
    Ok ((bool_decide (selfequal (m to) ∧ keys (m to) ⊆ keys (m so)), None), h) ∧
  ∃ u h1,
    Union order (loc a) (loc b) h = Ok ((loc u, None), h1) ∧
    IsSubset order (loc u) (loc a) h1 =
      Ok ((bool_decide (selfequal (m so)), None), h1) ∧
    IsSubset order (loc u) (loc b) h1 =
      Ok ((bool_decide (selfequal (m to)), None), h1) ∧
    IsSubset order (loc a) (loc u) h1 =
      Ok ((bool_decide (selfequal (m so) ∧ selfequal (m to) ∧
                        keys (m to) ⊆ keys (m so)), None), h1).
Proof.
  intros Hr Ha Hb Hk.
  pose proof (heap_inv_lookup _ _ _ (reachable_inv _ Hr) Ha) as Hsa.
  pose proof (heap_inv_lookup _ _ _ (reachable_inv _ Hr) Hb) as Hsb.
  split; [by apply IsSubset_answer|].
  set (uo := mkSet (mkMap (keys (m so) ∪ keys (m to))
                          (loose (m so) ⊎ loose (m to))) (kind so)).
  exists (length h), (h ++ [uo]).
  pose proof (heap_lookup_old _ _ _ uo Ha) as Ha'.
  pose proof (heap_lookup_old _ _ _ uo Hb) as Hb'.
  pose proof (heap_lookup_alloc h uo) as Hu.
  assert (set_inv uo) as Huo by (by apply set_inv_union).
  split; [by apply Union_run|].
  rewrite (IsSubset_answer _ _ _ _ _ Hu Ha' eq_refl Huo Hsa).
  rewrite (IsSubset_answer _ _ _ _ _ Hu Hb' Hk Huo Hsb).
  rewrite (IsSubset_answer _ _ _ _ _ Ha' Hu eq_refl Hsa Huo).
  assert (selfequal (m uo) ↔ selfequal (m so) ∧ selfequal (m to)) as Hself.
  { rewrite !selfequal_loose by (apply Hsa || apply Hsb || apply Huo).
    simpl. split; [intros H|intros [-> ->]]; multiset_solver. }
  split; [|split]; do 3 f_equal; apply bool_decide_ext.
  - simpl. set_solver.
  - simpl. set_solver.
  - rewrite Hself. simpl. set_solver.
Qed.

(** Going through the binds of a run that returned, down to its [ret]. *)
Ltac peel H :=
  repeat (cbv beta in H;
    lazymatch type of H with
    | bind _ _ _ = Ok _ => apply bind_inv in H as (? & ? & _ & H)
    | ret _ _ = Ok _ => injection H as <- <-
    | context [decide ?P] => destruct (decide P)
    end).

(** C10.  The checks compare [reflect.Kind] tags and nothing else.  Between
    two sets of equal kind [typematch] returns nil, and no binary operation
    that returns reports an error.  [typecheck] returns nil on any items whose
    kind is the set's, whatever their concrete types: two values of different
    struct types have the same kind and pass together. *)
Theorem kinds_are_compared_by_tag_only h a b so to items t1 fs1 t2 fs2 :
  h !! a = Some so → h !! b = Some to → kind so = kind to →
  Forall (λ x, KindOf x = Some (kind so)) items →
  typematch (loc a) (loc b) h = Ok (None, h) ∧
  (∀ r h', Union order (loc a) (loc b) h = Ok (r, h') → r.2 = None) ∧
  (∀ r h', Intersection order (loc a) (loc b) h = Ok (r, h') → r.2 = None) ∧
  (∀ r h', Difference order (loc a) (loc b) h = Ok (r, h') → r.2 = None) ∧
  (∀ r h', SymmetricDifference order (loc a) (loc b) h = Ok (r, h') → r.2 = None) ∧
  (∀ r h', Merge order (loc a) (loc b) h = Ok (r, h') → r = None) ∧
  (∀ r h', Separate order (loc a) (loc b) h = Ok (r, h') → r = None) ∧
  (∀ r h', IsEqual order (loc a) (loc b) h = Ok (r, h') → r.2 = None) ∧
  (∀ r h', IsSubset order (loc a) (loc b) h = Ok (r, h') → r.2 = None) ∧
  (∀ r h', IsSuperset order (loc a) (loc b) h = Ok (r, h') → r.2 = None) ∧
  typecheck (loc a) items h = Ok (None, h) ∧
  KindOf (VStruct t1 fs1) = KindOf (VStruct t2 fs2) ∧
  (kind so = reflect.Struct →
   typecheck (loc a) [VStruct t1 fs1; VStruct t2 fs2] h = Ok (None, h)).
Proof.
  intros Ha Hb Hk Hitems.
  pose proof (typematch_run _ _ _ _ _ Ha Hb) as Hm.
  rewrite decide_False in Hm by tauto.
  pose proof (typematch_run _ _ _ _ _ Hb Ha) as Hm'.
  rewrite decide_False in Hm' by (intros ?; congruence).
  assert (∀ l, Forall (λ x, KindOf x = Some (kind so)) l →
               typecheck (loc a) l h = Ok (None, h)) as Htc.
  { induction 1 as [|x l Hx _ IH]; simpl; [done|]. rewrite Hx.
    bind_with (deref_loc _ _ _ Ha). by rewrite decide_False by tauto. }
  split; [done|].
  unfold Union, Intersection, Difference, SymmetricDifference, Merge, Separate,
    IsEqual, IsSuperset, IsSubset.
  rewrite !(bind_Ok _ _ _ _ _ Hm), (bind_Ok _ _ _ _ _ Hm').
  repeat (split; [by intros r h' H; peel H|]).
  split; [by apply Htc|]. split; [done|].
  intros HS. apply Htc. rewrite HS. by repeat constructor.
Qed.

(** ** What holds of every heap a client can build, and of every run *)

(** X1.  In a heap a client can build, a set whose kind is not [Slice] holds
    nothing: its size is zero, it is empty, and its list and both typed views
    are empty. *)
Theorem sets_of_other_kinds_stay_empty h a o :
  reachable order h → h !! a = Some o → kind o ≠ reflect.Slice →
  m o = map_make ∧
  Size (loc a) h = Ok (0, h) ∧
  IsEmpty (loc a) h = Ok (true, h) ∧
  List order (loc a) h = Ok ([], h) ∧
  StringSlice order (loc a) h = Ok ([], h) ∧
  IntSlice order (loc a) h = Ok ([], h).
Proof.
  intros Hr Ha Hk.
  destruct (heap_inv_lookup _ _ _ (reachable_inv _ Hr) Ha) as (_ & _ & He).
  specialize (He Hk).
  assert (Size (loc a) h = Ok (0, h)) as HS
    by (by rewrite (Size_run _ _ _ Ha), He).
  split; [done|]. split; [done|]. split.
  { unfold IsEmpty. by bind_with HS. }
  rewrite (List_run _ _ _ Ha), (StringSlice_run _ _ _ Ha),
    (IntSlice_run _ _ _ Ha), He, order_make. done.
Qed.

(** X2.  In a heap a client can build, a set that holds an element has kind
    [Slice], the element can be hashed, and the element's kind is not the
    kind of the set. *)
Theorem no_element_has_the_kind_of_its_set h a o x :
  reachable order h → h !! a = Some o → entry x (m o) →
  kind o = reflect.Slice ∧ hashable x = true ∧ KindOf x ≠ Some (kind o).
Proof.
  intros Hr Ha Hx.
  destruct (heap_inv_lookup _ _ _ (reachable_inv _ Hr) Ha) as (_ & Hh & He).
  assert (kind o = reflect.Slice) as Hk.
  { destruct (decide (kind o = reflect.Slice)) as [|Hne]; [done|].
    rewrite (He Hne) in Hx. destruct Hx as [Hx|Hx]; simpl in Hx;
      [set_solver|multiset_solver]. }
  split; [done|]. split; [by apply Hh|].
  rewrite Hk. intros HK. specialize (Hh x Hx). by destruct x.
Qed.

(** X3.  Whatever calls a client makes, every set object stays at its address
    and keeps the kind it was constructed with. *)
Theorem kind_never_changes cs h h' a o :
  for_range cs (exec order) h = Ok (tt, h') → h !! a = Some o →
  ∃ o', h' !! a = Some o' ∧ kind o' = kind o.
Proof.
  intros Hrun.
  assert (respects keeps_kind (for_range cs (exec order))) as H.
  { apply respects_for_range; [apply _|]. apply exec_keeps_kind. }
  apply (H _ _ _ Hrun).
Qed.

(** X4.  The queries never write: a run of [Has], [Size], [IsEmpty], [List],
    [IsSubset], [IsSuperset], [StringSlice] or [IntSlice] that returns leaves
    the heap it started from. *)
Theorem queries_never_write s t items h :
  (∀ r h', Has s items h = Ok (r, h') → h' = h) ∧
  (∀ r h', Size s h = Ok (r, h') → h' = h) ∧
  (∀ r h', IsEmpty s h = Ok (r, h') → h' = h) ∧
  (∀ r h', List order s h = Ok (r, h') → h' = h) ∧
  (∀ r h', IsSubset order s t h = Ok (r, h') → h' = h) ∧
  (∀ r h', IsSuperset order s t h = Ok (r, h') → h' = h) ∧
  (∀ r h', StringSlice order s h = Ok (r, h') → h' = h) ∧
  (∀ r h', IntSlice order s h = Ok (r, h') → h' = h).
Proof.
  assert (∀ A (p : M A), respects eq p → ∀ r h', p h = Ok (r, h') → h' = h) as H.
  { intros A p Hp r h' Hrun. symmetry. by apply (Hp _ _ _ Hrun). }
  repeat split; apply H; auto with resp.
  - unfold IsSuperset. auto with resp.
  - unfold StringSlice. resp.
  - unfold IntSlice. resp.
Qed.

(** X5.  Writes through a pointer ([Add], [Remove], [Clear], [Merge],
    [Separate], in any number) allocate nothing and leave every other object
    as it was. *)
Theorem writes_touch_only_their_receiver c mus h h' :
  for_range mus (mutate order (loc c)) h = Ok (tt, h') →
  length h' = length h ∧ ∀ a, a ≠ c → h' !! a = h !! a.
Proof.
  intros Hrun.
  assert (respects (only_at c) (for_range mus (mutate order (loc c)))) as H.
  { apply respects_for_range; [apply _|]. apply mutate_only_at. }
  apply (H _ _ _ Hrun).
Qed.

(** X6.  In a heap a client can build, on two sets of the same kind,
    [Union], [Intersection] and [Difference] each return a pointer to a new
    object of that kind, placed after the objects there were, which are all as
    they were.  Of the values that equal themselves the new set holds those in
    either operand, in both, and in the receiver but not the argument.  An
    entry that does not equal itself is never found in the other set: the
    union holds those of both operands, the intersection none, the difference
    those of the receiver; so [s.Difference(s)] holds them, and
    [s.Intersection(s)] does not. *)
Theorem set_algebra_builds_new_sets h a b so to :
  reachable order h →
  h !! a = Some so → h !! b = Some to → kind so = kind to →
  Union order (loc a) (loc b) h =
    Ok ((loc (length h), None),
        h ++ [mkSet (mkMap (keys (m so) ∪ keys (m to))
                           (loose (m so) ⊎ loose (m to))) (kind so)]) ∧
  Intersection order (loc a) (loc b) h =
    Ok ((loc (length h), None),
        h ++ [mkSet (mkMap (keys (m so) ∩ keys (m to)) ∅) (kind so)]) ∧
  Difference order (loc a) (loc b) h =
    Ok ((loc (length h), None),
        h ++ [mkSet (mkMap (keys (m so) ∖ keys (m to)) (loose (m so)))
                    (kind so)]) ∧
  Difference order (loc a) (loc a) h =
    Ok ((loc (length h), None),
        h ++ [mkSet (mkMap ∅ (loose (m so))) (kind so)]) ∧
  Intersection order (loc a) (loc a) h =
    Ok ((loc (length h), None),
        h ++ [mkSet (mkMap (keys (m so)) ∅) (kind so)]).
Proof.
  intros Hr Ha Hb Hk.
  pose proof (heap_inv_lookup _ _ _ (reachable_inv _ Hr) Ha) as Hsa.
  pose proof (heap_inv_lookup _ _ _ (reachable_inv _ Hr) Hb) as Hsb.
  split; [by apply Union_run|]. split; [by apply Intersection_run|].
  split; [by apply Difference_run|].
  rewrite (Difference_run _ _ _ _ _ Ha Ha eq_refl Hsa Hsa).
  rewrite (Intersection_run _ _ _ _ _ Ha Ha eq_refl Hsa Hsa).
  by rewrite difference_diag_L, intersection_idemp_L.
Qed.

(** X7.  In a heap a client can build, on two sets of the same kind, [Merge]
    and [Separate] work in place: the receiver's object is rewritten with the
    same kind and no other object changes.  [Merge] puts the entries of the
    argument into the receiver, one more of each that does not equal itself.
    [Separate] takes the keys of the argument out of the receiver, and no
    entry that does not equal itself: [s.Separate(s)] leaves those in [s], and
    [s.Merge(s)] doubles them. *)
Theorem Merge_and_Separate_rewrite_the_receiver h a b so to :
  reachable order h →
  h !! a = Some so → h !! b = Some to → kind so = kind to →
  Merge order (loc a) (loc b) h =
    Ok (None, <[a := mkSet (mkMap (keys (m so) ∪ keys (m to))
                                  (loose (m so) ⊎ loose (m to))) (kind so)]> h) ∧
  Separate order (loc a) (loc b) h =
    Ok (None, <[a := mkSet (mkMap (keys (m so) ∖ keys (m to)) (loose (m so)))
                           (kind so)]> h) ∧
  Separate order (loc a) (loc a) h =
    Ok (None, <[a := mkSet (mkMap ∅ (loose (m so))) (kind so)]> h) ∧
  Merge order (loc a) (loc a) h =
    Ok (None, <[a := mkSet (mkMap (keys (m so)) (loose (m so) ⊎ loose (m so)))
                           (kind so)]> h).
Proof.
  intros Hr Ha Hb Hk.
  pose proof (heap_inv_lookup _ _ _ (reachable_inv _ Hr) Ha) as Hsa.
  pose proof (heap_inv_lookup _ _ _ (reachable_inv _ Hr) Hb) as Hsb.
  split; [by apply Merge_run|]. split; [by apply Separate_run|].
  rewrite (Separate_run _ _ _ _ _ Ha Ha eq_refl Hsa Hsa).
  rewrite (Merge_run _ _ _ _ _ Ha Ha eq_refl Hsa Hsa).
  by rewrite difference_diag_L, union_idemp_L.
Qed.

(** X8.  In a heap a client can build, on two sets of the same kind,
    [IsEqual] returns no error and answers whether the two have the same keys
    and every element of either equals itself: a set with a NaN in it is
    equal to no set, itself included.  When the sizes differ the heap is as it
    was; otherwise it has one more object, the union [IsEqual] built, and the
    objects there were are as they were. *)
Theorem IsEqual_decides_equality h a b so to :
  reachable order h →
  h !! a = Some so → h !! b = Some to → kind so = kind to →
  IsEqual order (loc a) (loc b) h =
    Ok ((bool_decide (keys (m so) = keys (m to) ∧
                      selfequal (m so) ∧ selfequal (m to)), None),
        if decide (map_len (m so) = map_len (m to))
        then h ++ [mkSet (mkMap (keys (m so) ∪ keys (m to))
                                (loose (m so) ⊎ loose (m to))) (kind so)]
        else h) ∧
  IsEqual order (loc a) (loc a) h =
    Ok ((bool_decide (selfequal (m so)), None),
        h ++ [mkSet (mkMap (keys (m so)) (loose (m so) ⊎ loose (m so)))
                    (kind so)]).
Proof.
  intros Hr Ha Hb Hk.
  pose proof (heap_inv_lookup _ _ _ (reachable_inv _ Hr) Ha) as Hsa.
  pose proof (heap_inv_lookup _ _ _ (reachable_inv _ Hr) Hb) as Hsb.
  split; [by apply IsEqual_answer|].
  rewrite (IsEqual_answer _ _ _ _ _ Ha Ha eq_refl Hsa Hsa).
  rewrite decide_True by done. rewrite union_idemp_L. do 3 f_equal.
  apply bool_decide_ext. tauto.
Qed.

(** X9.  In a heap a client can build, on two sets of the same kind,
    [s.IsSuperset(t)] answers whether every element of [s] equals itself and
    is in [t], and [IsEqual] answers true exactly when [IsSubset] and
    [IsSuperset] both do. *)
Theorem IsEqual_is_IsSubset_both_ways h a b so to :
  reachable order h →
  h !! a = Some so → h !! b = Some to → kind so = kind to →
  IsSuperset order (loc a) (loc b) h =
    Ok ((bool_decide (selfequal (m so) ∧ keys (m so) ⊆ keys (m to)), None), h) ∧
  ∃ sub sup eq,
    result (IsSubset order (loc a) (loc b) h) = Some (sub, None) ∧
    result (IsSuperset order (loc a) (loc b) h) = Some (sup, None) ∧
    result (IsEqual order (loc a) (loc b) h) = Some (eq, None) ∧
    eq = sub && sup.
Proof.
  intros Hr Ha Hb Hk.
  pose proof (heap_inv_lookup _ _ _ (reachable_inv _ Hr) Ha) as Hsa.
  pose proof (heap_inv_lookup _ _ _ (reachable_inv _ Hr) Hb) as Hsb.
  unfold IsSuperset.
  rewrite (IsSubset_answer _ _ _ _ _ Ha Hb Hk Hsa Hsb).
  rewrite (IsSubset_answer _ _ _ _ _ Hb Ha (eq_sym Hk) Hsb Hsa).
  split; [done|].
  eexists _, _, _. do 2 (split; [done|]).
  rewrite (IsEqual_answer _ _ _ _ _ Ha Hb Hk Hsa Hsb). split; [done|].
  set (P := keys (m so) = keys (m to) ∧ selfequal (m so) ∧ selfequal (m to)).
  set (Q := selfequal (m to) ∧ keys (m to) ⊆ keys (m so)).
  set (R := selfequal (m so) ∧ keys (m so) ⊆ keys (m to)).
  assert (P ↔ Q ∧ R) as Hiff by (unfold P, Q, R; set_solver).
  destruct (decide P) as [HP|HP].
  - rewrite bool_decide_eq_true_2 by done. apply Hiff in HP as [HQ HR].
    by rewrite !bool_decide_eq_true_2.
  - rewrite (bool_decide_eq_false_2 _ HP). symmetry. apply andb_false_iff.
    destruct (decide Q) as [HQ|HQ]; [|left; by apply bool_decide_eq_false_2].
    right. apply bool_decide_eq_false_2. intros HR. apply HP, Hiff. done.
Qed.

Lemma size_union_intersection (X Y : gset value) :
  size (X ∪ Y) + size (X ∩ Y) = size X + size Y.
Proof.
  rewrite size_union_alt, size_difference_alt, (intersection_comm_L Y X).
  assert (size (X ∩ Y) ≤ size Y) by (apply subseteq_size; set_solver). lia.
Qed.

(** X10.  In a heap a client can build, for two sets of the same kind, the
    sizes of their [Union] and of their [Intersection] add up to the sizes of
    the two sets. *)
Theorem sizes_of_Union_and_Intersection_add_up h a b so to :
  reachable order h →
  h !! a = Some so → h !! b = Some to → kind so = kind to →
  ∃ nu ni,
    result (sizes_of_Union_and_Intersection order (loc a) (loc b) h) =
      Some (nu, ni, map_len (m so), map_len (m to)) ∧
    nu + ni = map_len (m so) + map_len (m to).
Proof.
  intros Hr Ha Hb Hk.
  pose proof (heap_inv_lookup _ _ _ (reachable_inv _ Hr) Ha) as Hsa.
  pose proof (heap_inv_lookup _ _ _ (reachable_inv _ Hr) Hb) as Hsb.
  set (uo := mkSet (mkMap (keys (m so) ∪ keys (m to))
                          (loose (m so) ⊎ loose (m to))) (kind so)).
  set (io := mkSet (mkMap (keys (m so) ∩ keys (m to)) ∅) (kind so)).
  exists (map_len (m uo)), (map_len (m io)).
  split.
  - unfold sizes_of_Union_and_Intersection.
    bind_with (Union_run _ _ _ _ _ Ha Hb Hk Hsa Hsb). simpl fst.
    pose proof (heap_lookup_old _ _ _ uo Ha) as Ha1.
    pose proof (heap_lookup_old _ _ _ uo Hb) as Hb1.
    bind_with (Intersection_run _ _ _ _ _ Ha1 Hb1 Hk Hsa Hsb).
    simpl fst.
    bind_with (Size_run _ _ _ (heap_lookup_old _ _ _ io (heap_lookup_alloc h uo))).
    bind_with (Size_run _ _ _ (heap_lookup_alloc (h ++ [uo]) io)).
    bind_with (Size_run _ _ _ (heap_lookup_old _ _ _ io Ha1)).
    bind_with (Size_run _ _ _ (heap_lookup_old _ _ _ io Hb1)).
    done.
  - unfold map_len. simpl.
    rewrite gmultiset_size_disj_union, (@gmultiset_size_empty value _ _).
    pose proof (size_union_intersection (keys (m so)) (keys (m to))). lia.
Qed.

(** X11.  In a heap a client can build, for two sets of the same kind,
    [s.Union(t)] and [t.Union(s)] build the same set.  [IsEqual] between the
    two results answers true when every element of [s] and of [t] equals
    itself, and false otherwise. *)
Theorem Union_commutes h a b so to :
  reachable order h →
  h !! a = Some so → h !! b = Some to → kind so = kind to →
  (∃ uo, Union order (loc a) (loc b) h = Ok ((loc (length h), None), h ++ [uo]) ∧
         Union order (loc b) (loc a) h = Ok ((loc (length h), None), h ++ [uo])) ∧
  result (Union_both_ways order (loc a) (loc b) h) =
    Some (bool_decide (selfequal (m so) ∧ selfequal (m to)), None).
Proof.
  intros Hr Ha Hb Hk.
  pose proof (heap_inv_lookup _ _ _ (reachable_inv _ Hr) Ha) as Hsa.
  pose proof (heap_inv_lookup _ _ _ (reachable_inv _ Hr) Hb) as Hsb.
  set (uo := mkSet (mkMap (keys (m so) ∪ keys (m to))
                          (loose (m so) ⊎ loose (m to))) (kind so)).
  assert (mkSet (mkMap (keys (m to) ∪ keys (m so))
                       (loose (m to) ⊎ loose (m so))) (kind to) = uo) as Hvu.
  { unfold uo. rewrite Hk. f_equal.
    apply gomap_eq; simpl; [set_solver|multiset_solver]. }
  split.
  { exists uo. split; [by apply Union_run|].
    by rewrite (Union_run _ _ _ _ _ Hb Ha (eq_sym Hk) Hsb Hsa), Hvu. }
  unfold Union_both_ways.
  bind_with (Union_run _ _ _ _ _ Ha Hb Hk Hsa Hsb). simpl fst. fold uo.
  pose proof (heap_lookup_old _ _ _ uo Ha) as Ha1.
  pose proof (heap_lookup_old _ _ _ uo Hb) as Hb1.
  bind_with (Union_run _ _ _ _ _ Hb1 Ha1 (eq_sym Hk) Hsb Hsa).
  simpl fst. rewrite Hvu.
  assert (set_inv uo) as Hu by (by apply set_inv_union).
  rewrite (IsEqual_answer _ _ _ uo uo); [|
    by apply heap_lookup_old, heap_lookup_alloc|apply heap_lookup_alloc|done..].
  simpl. f_equal. f_equal. apply bool_decide_ext.
  rewrite !selfequal_loose by (apply Hsa || apply Hsb || apply Hu).
  simpl. split.
  - intros (_ & H & _). split; multiset_solver.
  - intros [-> ->]. split; [done|]. split; multiset_solver.
Qed.

(** X12.  In a heap a client can build, the [Difference] of a set with itself
    holds the entries of the set that do not equal themselves, and nothing
    else: it is empty exactly when every element of the set equals itself. *)
Theorem Difference_of_self_is_empty h a o :
  reachable order h → h !! a = Some o →
  result (Difference_of_self order (loc a) h) =
    Some (bool_decide (selfequal (m o))).
Proof.
  intros Hr Ha.
  pose proof (heap_inv_lookup _ _ _ (reachable_inv _ Hr) Ha) as Ho.
  unfold Difference_of_self.
  bind_with (Difference_run _ _ _ _ _ Ha Ha eq_refl Ho Ho).
  simpl fst. unfold IsEmpty.
  bind_with (Size_run _ _ _ (heap_lookup_alloc h
    (mkSet (mkMap (keys (m o) ∖ keys (m o)) (loose (m o))) (kind o)))).
  unfold ret, map_len. simpl. f_equal.
  rewrite difference_diag_L, size_empty. simpl.
  rewrite <- (decide_loose (m o)) by apply Ho.
  apply bool_decide_ext. split.
  - apply gmultiset_size_empty_inv.
  - intros ->. apply gmultiset_size_empty.
Qed.

(** X13.  In a heap a client can build, for two sets of the same kind, the
    [Intersection] of a set with its [Union] with the other holds the
    elements of the set that equal themselves: [IsEqual] between it and the
    set answers true exactly when every element of the set does. *)
Theorem Intersection_with_Union_is_the_set h a b so to :
  reachable order h →
  h !! a = Some so → h !! b = Some to → kind so = kind to →
  result (Intersection_with_Union order (loc a) (loc b) h) =
    Some (bool_decide (selfequal (m so)), None).
Proof.
  intros Hr Ha Hb Hk.
  pose proof (heap_inv_lookup _ _ _ (reachable_inv _ Hr) Ha) as Hsa.
  pose proof (heap_inv_lookup _ _ _ (reachable_inv _ Hr) Hb) as Hsb.
  unfold Intersection_with_Union.
  bind_with (Union_run _ _ _ _ _ Ha Hb Hk Hsa Hsb). simpl fst.
  set (uo := mkSet (mkMap (keys (m so) ∪ keys (m to))
                          (loose (m so) ⊎ loose (m to))) (kind so)).
  assert (set_inv uo) as Hu by (by apply set_inv_union).
  pose proof (heap_lookup_old _ _ _ uo Ha) as Ha1.
  bind_with (Intersection_run _ _ _ so uo Ha1
               (heap_lookup_alloc h uo) eq_refl Hsa Hu).
  simpl fst.
  set (io := mkSet (mkMap (keys (m so) ∩ keys (m uo)) ∅) (kind so)).
  assert (set_inv io) as Hi.
  { apply (set_inv_sub so); simpl; [done|set_solver|multiset_solver]. }
  rewrite (IsEqual_answer _ _ _ io so); [|
    apply heap_lookup_alloc|by apply heap_lookup_old|done..].
  simpl. do 2 f_equal. apply bool_decide_ext.
  assert (selfequal (m io)) as Hself
    by (by apply (selfequal_loose (m io)); [apply Hi|]).
  split; [tauto|]. intros H. split; [simpl; set_solver|done].
Qed.

(** X14.  In a heap a client can build, for two sets of the same kind: after
    [s.Merge(t)], [s.IsSubset(t)] answers whether every element of [t] equals
    itself; after [s.Separate(t)], the [Intersection] of [s] and [t] is
    empty. *)
Theorem Merge_and_Separate_take_effect h a b so to :
  reachable order h →
  h !! a = Some so → h !! b = Some to → kind so = kind to →
  result (Merge_then_IsSubset order (loc a) (loc b) h) =
    Some (bool_decide (selfequal (m to)), None) ∧
  result (Separate_then_Intersection order (loc a) (loc b) h) = Some true.
Proof.
  intros Hr Ha Hb Hk.
  pose proof (heap_inv_lookup _ _ _ (reachable_inv _ Hr) Ha) as Hsa.
  pose proof (heap_inv_lookup _ _ _ (reachable_inv _ Hr) Hb) as Hsb.
  split.
  - unfold Merge_then_IsSubset.
    bind_with (Merge_run _ _ _ _ _ Ha Hb Hk Hsa Hsb).
    set (so' := mkSet (mkMap (keys (m so) ∪ keys (m to))
                             (loose (m so) ⊎ loose (m to))) (kind so)).
    assert (set_inv so') as Hs' by (by apply set_inv_union).
    pose proof (heap_lookup_insert _ _ _ so' Ha) as Ha'.
    destruct (decide (b = a)) as [->|Hne].
    + rewrite (IsSubset_answer _ _ _ so' so' Ha' Ha' eq_refl Hs' Hs').
      simpl. do 2 f_equal. apply bool_decide_ext.
      assert (to = so) as -> by congruence.
      rewrite !selfequal_loose by (apply Hsa || apply Hs'). simpl.
      split; [intros [H _]|intros ->; split; [|done]]; multiset_solver.
    + assert (<[a:=so']> h !! b = Some to) as Hb'
        by (by rewrite list_lookup_insert_ne).
      rewrite (IsSubset_answer _ _ _ so' to Ha' Hb' Hk Hs' Hsb).
      simpl. do 2 f_equal. apply bool_decide_ext. set_solver.
  - unfold Separate_then_Intersection.
    bind_with (Separate_run _ _ _ _ _ Ha Hb Hk Hsa Hsb).
    set (so' := mkSet (mkMap (keys (m so) ∖ keys (m to)) (loose (m so)))
                      (kind so)).
    assert (set_inv so') as Hs'
      by (apply (set_inv_sub so); simpl; [done|set_solver|done]).
    pose proof (heap_lookup_insert _ _ _ so' Ha) as Ha'.
    assert (∃ to', <[a:=so']> h !! b = Some to' ∧ kind to' = kind so ∧
                   set_inv to' ∧ keys (m so') ∩ keys (m to') = ∅)
      as (to' & Hb' & Hk' & Ht' & Hd).
    { destruct (decide (b = a)) as [->|Hne].
      - exists so'. do 3 (split; [done|]). simpl.
        replace (m to) with (m so) by congruence. set_solver.
      - exists to. rewrite list_lookup_insert_ne by done.
        do 3 (split; [done|]). simpl. set_solver. }
    bind_with (Intersection_run _ _ _ so' to' Ha' Hb' (eq_sym Hk') Hs' Ht').
    simpl fst. unfold IsEmpty.
    bind_with (Size_run _ _ _ (heap_lookup_alloc (<[a:=so']> h)
                 (mkSet (mkMap (keys (m so') ∩ keys (m to')) ∅) (kind so')))).
    unfold ret, map_len. cbn [m keys loose result]. by rewrite Hd.
Qed.

(** X18.  [Clear] rewrites the receiver's object with no key and the same
    kind; the set is then empty: its size is zero and its list is empty. *)
Theorem Clear_empties_the_set h a o :
  h !! a = Some o →
  ∃ h1,
    Clear (loc a) h = Ok (tt, h1) ∧
    h1 = <[a := mkSet map_make (kind o)]> h ∧
    Size (loc a) h1 = Ok (0, h1) ∧
    IsEmpty (loc a) h1 = Ok (true, h1) ∧
    List order (loc a) h1 = Ok ([], h1).
Proof.
  intros Ha. exists (<[a := mkSet map_make (kind o)]> h).
  pose proof (heap_lookup_insert _ _ _ (mkSet map_make (kind o)) Ha) as Ha1.
  assert (Size (loc a) (<[a := mkSet map_make (kind o)]> h) =
          Ok (0, <[a := mkSet map_make (kind o)]> h)) as HS
    by (by rewrite (Size_run _ _ _ Ha1)).
  split.
  { unfold Clear. bind_with (deref_loc _ _ _ Ha). by apply (store_loc _ _ o). }
  split; [done|]. split; [done|]. split.
  - unfold IsEmpty. by bind_with HS.
  - rewrite (List_run _ _ _ Ha1). simpl. by rewrite order_make.
Qed.

Lemma NoDup_omap_inj {A B} (f : A → option B) l :
  (∀ x y z, f x = Some z → f y = Some z → x = y) →
  NoDup l → NoDup (omap f l).
Proof.
  intros Hinj. induction 1 as [|x l Hx _ IH]; simpl; [constructor|].
  destruct (f x) as [z|] eqn:Hfx; [|done].
  constructor; [|done].
  intros (y & Hy & Hfy)%list_elem_of_omap.
  by rewrite (Hinj _ _ _ Hfx Hfy) in Hx.
Qed.

Lemma views_length (l : list value) :
  length (omap as_string l) + length (omap as_int l) ≤ length l.
Proof.
  induction l as [|x l IH]; [done|].
  destruct x; cbn in *; lia.
Qed.

Lemma omap_reflexive {T} (assert : value → option T) (l : list value) :
  (∀ x, is_Some (assert x) → reflexive x = true) →
  omap assert l = omap assert (filter (λ x, reflexive x = true) l).
Proof.
  intros Hr. induction l as [|x l IH]; [done|].
  rewrite filter_cons. destruct (assert x) as [z|] eqn:Hx.
  - rewrite decide_True by (apply Hr; by rewrite Hx). cbn. rewrite Hx.
    by rewrite IH.
  - case_decide; cbn; rewrite Hx; done.
Qed.

(** X21.  [StringSlice] returns the strings of the set and [IntSlice] its
    [int]s: an element of another type is in neither.  Together they are no
    longer than the set is large, and neither writes.  In a heap a client can
    build each of the strings, and of the [int]s, is there once. *)
Theorem typed_views_select_by_type h a o :
  h !! a = Some o →
  ∃ ss ns,
    StringSlice order (loc a) h = Ok (ss, h) ∧
    IntSlice order (loc a) h = Ok (ns, h) ∧
    (reachable order h → NoDup ss ∧ NoDup ns) ∧
    (∀ v, v ∈ ss ↔ entry (VString v) (m o)) ∧
    (∀ n, n ∈ ns ↔ entry (VInt n) (m o)) ∧
    length ss + length ns ≤ map_len (m o).
Proof.
  intros Ha.
  exists (omap as_string (order (m o))), (omap as_int (order (m o))).
  split; [by apply StringSlice_run|]. split; [by apply IntSlice_run|].
  split; [|split; [|split]].
  - intros Hr.
    destruct (heap_inv_lookup _ _ _ (reachable_inv _ Hr) Ha) as (Hwf & _).
    assert (NoDup (filter (λ x, reflexive x = true) (order (m o)))) as Hnd.
    { rewrite order_perm. unfold map_entries. rewrite filter_app.
      rewrite (elem_of_nil_inv (filter _ (elements (loose (m o))))).
      - rewrite app_nil_r. apply NoDup_filter, NoDup_elements.
      - intros x [Hx Hin%gmultiset_elem_of_elements]%list_elem_of_filter.
        destruct Hwf as [_ Hl]. rewrite (Hl x Hin) in Hx. done. }
    split.
    + rewrite (omap_reflexive as_string) by (by intros [] [z Hz]).
      apply NoDup_omap_inj; [|done]. intros [] [] z; simpl; congruence.
    + rewrite (omap_reflexive as_int) by (by intros [] [z Hz]).
      apply NoDup_omap_inj; [|done]. intros [] [] z; simpl; congruence.
  - intros v. rewrite list_elem_of_omap. split.
    + intros (x & Hx & Hv). destruct x; try discriminate Hv.
      injection Hv as ->. by apply order_entry.
    + intros Hv. exists (VString v). split; [|done]. by apply order_entry.
  - intros n. rewrite list_elem_of_omap. split.
    + intros (x & Hx & Hn). destruct x; try discriminate Hn.
      injection Hn as ->. by apply order_entry.
    + intros Hn. exists (VInt n). split; [|done]. by apply order_entry.
  - etransitivity; [apply views_length|].
    rewrite order_perm. unfold map_entries, map_len.
    rewrite length_app. unfold size, set_size, gmultiset_size. simpl. lia.
Qed.

(** X23.  On a nil receiver every method panics, except [Add], [Remove] and
    [Has] called with no item, which return before they touch the receiver.
    A binary operation panics on a nil argument as well. *)
Theorem nil_receiver_panics s x items h :
  (Add nil [] h = Ok (None, h) ∧ Remove nil [] h = Ok (None, h) ∧
   Has nil [] h = Ok ((false, None), h)) ∧
  (Add nil (x :: items) h = Panic ∧ Remove nil (x :: items) h = Panic ∧
   Has nil (x :: items) h = Panic) ∧
  (Size nil h = Panic ∧ IsEmpty nil h = Panic ∧ Clear nil h = Panic ∧
   List order nil h = Panic ∧ Copy order nil h = Panic ∧
   StringSlice order nil h = Panic ∧ IntSlice order nil h = Panic) ∧
  (Union order nil s h = Panic ∧ Union order s nil h = Panic ∧
   Intersection order nil s h = Panic ∧ Intersection order s nil h = Panic ∧
   Difference order nil s h = Panic ∧ Difference order s nil h = Panic ∧
   SymmetricDifference order nil s h = Panic ∧
   SymmetricDifference order s nil h = Panic ∧
   Merge order nil s h = Panic ∧ Merge order s nil h = Panic ∧
   Separate order nil s h = Panic ∧ Separate order s nil h = Panic ∧
   IsEqual order nil s h = Panic ∧ IsEqual order s nil h = Panic ∧
   IsSubset order nil s h = Panic ∧ IsSubset order s nil h = Panic ∧
   IsSuperset order nil s h = Panic ∧ IsSuperset order s nil h = Panic).
Proof.
  assert (typematch s nil h = Panic) as Hm.
  { unfold typematch, bind, deref. destruct s as [|a]; [done|].
    by destruct (h !! a). }
  split; [done|]. split; [done|]. split; [done|].
  unfold IsSuperset, Union, Intersection, Difference, SymmetricDifference,
    Merge, Separate, IsEqual, IsSubset.
  repeat split; first [done | by apply bind_Panic].
Qed.

End laws.

(** ** The claims at concrete inputs *)

(** The order in which the entries of a map are given does for an iteration
    order. *)
Lemma entries_perm : ∀ M : gomap, map_entries M ≡ₚ map_entries M.
Proof. reflexivity. Qed.

(** C6, as stated, fails: the copy of a set that holds a NaN is not equal to
    the set.  The union [IsEqual] builds gets the NaN of either, and is larger
    than the copy. *)
Lemma Copy_of_a_set_with_NaN_is_not_equal :
  result ((s <- New reflect.Slice [VFloat64 F64NaN] ;;
           c <- Copy map_entries s ;;
           IsEqual map_entries c s) []) = Some (false, None).
Proof. vm_compute. reflexivity. Qed.

(** C7, as stated, fails: no element is in exactly one of [s] and [s], yet
    [s.SymmetricDifference(s)] of a set that holds a NaN holds two. *)
Lemma SymmetricDifference_of_a_set_with_NaN_and_itself :
  result ((s <- New reflect.Slice [VFloat64 F64NaN] ;;
           d <- SymmetricDifference map_entries s s ;;
           n <- Size d.1 ;;
           l <- List map_entries d.1 ;;
           ret (d.2, n, l)) []) =
    Some (None, 2, [VFloat64 F64NaN; VFloat64 F64NaN]).
Proof. vm_compute. reflexivity. Qed.

(** C8, as stated, fails: with [A] empty and [B] holding one element, both of
    kind [Slice], [A.IsSubset(Union(A,B))] answers false. *)
Lemma IsSubset_of_Union_with_operand_as_receiver :
  result ((a <- New reflect.Slice [] ;;
           b <- New reflect.Slice [VInt 1] ;;
           u <- Union map_entries a b ;;
           IsSubset map_entries a u.1) []) = Some (false, None).
Proof. vm_compute. reflexivity. Qed.

(** C9, as stated, fails: with kind [Slice] and a slice among the items,
    [New] panics and returns nothing. *)
Lemma New_panics_on_unhashable_item :
  New reflect.Slice [VSlice [VInt 1]] [] = Panic.
Proof. reflexivity. Qed.

(** Heaps a client builds with [New]. *)
Lemma reachable_one_set :
  reachable map_entries
    [mkSet (mkMap {[VInt 1; VString "go"]} {[+ VFloat64 F64NaN +]}) reflect.Slice].
Proof.
  apply (reachable_call map_entries
           (CallNew reflect.Slice [VInt 1; VString "go"; VFloat64 F64NaN]) []);
    [apply reachable_init|vm_compute; reflexivity].
Qed.

Lemma reachable_two_sets :
  reachable map_entries
    [mkSet (mkMap {[VInt 1; VInt 2]} {[+ VFloat64 F64NaN +]}) reflect.Slice;
     mkSet (mkMap {[VInt 2; VInt 3]} ∅) reflect.Slice].
Proof.
  apply (reachable_call map_entries
           (CallNew reflect.Slice [VInt 2; VInt 3])
           [mkSet (mkMap {[VInt 1; VInt 2]} {[+ VFloat64 F64NaN +]}) reflect.Slice]);
    [|vm_compute; reflexivity].
  apply (reachable_call map_entries
           (CallNew reflect.Slice [VInt 1; VInt 2; VFloat64 F64NaN]) []);
    [apply reachable_init|vm_compute; reflexivity].
Qed.

(** [New(reflect.Int, 1, 2, 3)]: the items are dropped. *)
Lemma reachable_int_set : reachable map_entries [mkSet map_make reflect.Int].
Proof.
  apply (reachable_call map_entries
           (CallNew reflect.Int [VInt 1; VInt 2; VInt 3]) []);
    [apply reachable_init|vm_compute; reflexivity].
Qed.

Lemma Add_then_Has_never_true_witness :
  let K := reflect.Int in
  let items := [VInt 7] in
  let x := VInt 1 in
  let h := [] : heap in
  KindOf x = Some K ∧
  ((Add_then_Has K items x h = Panic ∧ Remove_then_Has K items x h = Panic) ∨
   (let e := Some (TypeViolation reflect.Slice K) in
    Add_then_Has K items x h = Ok ((e, (false, e)), h ++ [mkSet map_make K]) ∧
    Remove_then_Has K items x h = Ok ((e, (false, e)), h ++ [mkSet map_make K]))).
Proof.
  intros K items x h.
  assert (KindOf x = Some K) as H1 by reflexivity.
  split; [assumption|].
  exact (Add_then_Has_never_true K items x h H1).
Defined.

Lemma nonslice_set_rejects_every_call_witness :
  let o := mkSet map_make reflect.Int in
  let h := [o] in
  let items := [VInt 1] in
  h !! 0 = Some o ∧
  kind o ≠ reflect.Slice ∧
  items ≠ [] ∧
  (Add (loc 0) items h = Ok (Some (TypeViolation reflect.Slice (kind o)), h) ∧
   Remove (loc 0) items h = Ok (Some (TypeViolation reflect.Slice (kind o)), h) ∧
   Has (loc 0) items h = Ok ((false, Some (TypeViolation reflect.Slice (kind o))), h)).
Proof.
  intros o h items.
  assert (h !! 0 = Some o) as H1 by reflexivity.
  assert (kind o ≠ reflect.Slice) as H2 by discriminate.
  assert (items ≠ []) as H3 by discriminate.
  do 3 (split; [assumption|]).
  exact (nonslice_set_rejects_every_call h 0 o items H1 H2 H3).
Defined.

Lemma New_returns_unless_unhashable_witness :
  let k := reflect.Int in
  let items := [VString "a"] in
  let h := [] : heap in
  forallb hashable items = true ∧
  (∃ o, New k items h = Ok (loc (length h), h ++ [o]) ∧ kind o = k ∧
     (∀ x, entry x (m o) → x ∈ items) ∧
     (∀ e h', Add (loc (length h)) items (h ++ [mkSet map_make k]) = Ok (Some e, h') →
              m o = map_make) ∧
     (∀ h', Add (loc (length h)) items (h ++ [mkSet map_make k]) = Ok (None, h') →
            ∀ x, x ∈ items → entry x (m o))).
Proof.
  intros k items h.
  assert (forallb hashable items = true) as H1 by reflexivity.
  do 1 (split; [assumption|]).
  exact (New_returns_unless_unhashable k items h H1).
Defined.

Lemma mismatched_kinds_are_rejected_witness :
  let so := mkSet map_make reflect.String in
  let to := mkSet map_make reflect.Int in
  let h := [so; to] in
  h !! 0 = Some so ∧
  h !! 1 = Some to ∧
  kind so ≠ kind to ∧
  (let e := Some (KindMismatch (kind so) (kind to)) in
   Union map_entries (loc 0) (loc 1) h = Ok ((nil, e), h) ∧
   Intersection map_entries (loc 0) (loc 1) h = Ok ((nil, e), h) ∧
   Difference map_entries (loc 0) (loc 1) h = Ok ((nil, e), h) ∧
   SymmetricDifference map_entries (loc 0) (loc 1) h = Ok ((nil, e), h) ∧
   Merge map_entries (loc 0) (loc 1) h = Ok (e, h) ∧
   Separate map_entries (loc 0) (loc 1) h = Ok (e, h) ∧
   IsEqual map_entries (loc 0) (loc 1) h = Ok ((false, e), h) ∧
   IsSubset map_entries (loc 0) (loc 1) h = Ok ((false, e), h)).
Proof.
  intros so to h.
  assert (h !! 0 = Some so) as H1 by reflexivity.
  assert (h !! 1 = Some to) as H2 by reflexivity.
  assert (kind so ≠ kind to) as H3 by discriminate.
  do 3 (split; [assumption|]).
  exact (mismatched_kinds_are_rejected map_entries h 0 1 so to H1 H2 H3).
Defined.

Lemma Copy_is_independent_and_equal_without_NaN_witness :
  let o := mkSet (mkMap {[VInt 1; VString "go"]} {[+ VFloat64 F64NaN +]})
                 reflect.Slice in
  let h := [o] in
  (∀ M : gomap, map_entries M ≡ₚ map_entries M) ∧
  reachable map_entries h ∧
  h !! 0 = Some o ∧
  (∃ c h1,
     Copy map_entries (loc 0) h = Ok (loc c, h1) ∧ c ≠ 0 ∧
     h1 !! 0 = Some o ∧ h1 !! c = Some o ∧
     result (IsEqual map_entries (loc c) (loc 0) h1) =
       Some (bool_decide (selfequal (m o)), None) ∧
     result (IsEqual map_entries (loc 0) (loc c) h1) =
       Some (bool_decide (selfequal (m o)), None) ∧
     ∀ mus h2, for_range mus (mutate map_entries (loc c)) h1 = Ok (tt, h2) →
               h2 !! 0 = Some o).
Proof.
  intros o h.
  assert (reachable map_entries h) as H1 by exact reachable_one_set.
  assert (h !! 0 = Some o) as H2 by reflexivity.
  split; [exact entries_perm|]. do 2 (split; [assumption|]).
  exact (Copy_is_independent_and_equal_without_NaN map_entries entries_perm h 0 o
           H1 H2).
Defined.

Lemma SymmetricDifference_is_union_of_differences_witness :
  let so := mkSet (mkMap {[VInt 1; VInt 2]} {[+ VFloat64 F64NaN +]})
                  reflect.Slice in
  let to := mkSet (mkMap {[VInt 2; VInt 3]} ∅) reflect.Slice in
  let h := [so; to] in
  (∀ M : gomap, map_entries M ≡ₚ map_entries M) ∧
  reachable map_entries h ∧
  h !! 0 = Some so ∧
  h !! 1 = Some to ∧
  kind so = kind to ∧
  (∃ r h1 ro,
     SymmetricDifference map_entries (loc 0) (loc 1) h = Ok ((loc r, None), h1) ∧
     SymmetricDifference_spec map_entries (loc 0) (loc 1) h = Ok ((loc r, None), h1) ∧
     h1 !! r = Some ro ∧ kind ro = kind so ∧
     (∀ x, x ∈ keys (m ro) ↔
           (x ∈ keys (m so) ∧ x ∉ keys (m to)) ∨
           (x ∈ keys (m to) ∧ x ∉ keys (m so))) ∧
     loose (m ro) = loose (m so) ⊎ loose (m to) ∧
     (∀ x, reflexive x = true → entry x (m ro) ↔
           (entry x (m so) ∧ ¬ entry x (m to)) ∨
           (entry x (m to) ∧ ¬ entry x (m so))) ∧
     h1 !! 0 = Some so ∧ h1 !! 1 = Some to).
Proof.
  intros so to h.
  assert (reachable map_entries h) as H1 by exact reachable_two_sets.
  assert (h !! 0 = Some so) as H2 by reflexivity.
  assert (h !! 1 = Some to) as H3 by reflexivity.
  assert (kind so = kind to) as H4 by reflexivity.
  split; [exact entries_perm|]. do 4 (split; [assumption|]).
  exact (SymmetricDifference_is_union_of_differences map_entries entries_perm h 0 1 so to
           H1 H2 H3 H4).
Defined.

Lemma Union_has_its_operands_as_subsets_witness :
  let so := mkSet (mkMap {[VInt 1; VInt 2]} {[+ VFloat64 F64NaN +]})
                  reflect.Slice in
  let to := mkSet (mkMap {[VInt 2; VInt 3]} ∅) reflect.Slice in
  let h := [so; to] in
  (∀ M : gomap, map_entries M ≡ₚ map_entries M) ∧
  reachable map_entries h ∧
  h !! 0 = Some so ∧
  h !! 1 = Some to ∧
  kind so = kind to ∧
  (IsSubset map_entries (loc 0) (loc 1) h =
     Ok ((bool_decide (selfequal (m to) ∧ keys (m to) ⊆ keys (m so)), None), h) ∧
   ∃ u h1,
     Union map_entries (loc 0) (loc 1) h = Ok ((loc u, None), h1) ∧
     IsSubset map_entries (loc u) (loc 0) h1 =
       Ok ((bool_decide (selfequal (m so)), None), h1) ∧
     IsSubset map_entries (loc u) (loc 1) h1 =
       Ok ((bool_decide (selfequal (m to)), None), h1) ∧
     IsSubset map_entries (loc 0) (loc u) h1 =
       Ok ((bool_decide (selfequal (m so) ∧ selfequal (m to) ∧
                         keys (m to) ⊆ keys (m so)), None), h1)).
Proof.
  intros so to h.
  assert (reachable map_entries h) as H1 by exact reachable_two_sets.
  assert (h !! 0 = Some so) as H2 by reflexivity.
  assert (h !! 1 = Some to) as H3 by reflexivity.
  assert (kind so = kind to) as H4 by reflexivity.
  split; [exact entries_perm|]. do 4 (split; [assumption|]).
  exact (Union_has_its_operands_as_subsets map_entries entries_perm h 0 1 so to
           H1 H2 H3 H4).
Defined.

Lemma kinds_are_compared_by_tag_only_witness :
  let so := mkSet map_make reflect.Struct in
  let to := mkSet map_make reflect.Struct in
  let h := [so; to] in
  let items := [VStruct "Point" [VInt 1; VInt 2]; VStruct "User" [VString "ann"]] in
  h !! 0 = Some so ∧
  h !! 1 = Some to ∧
  kind so = kind to ∧
  Forall (λ x, KindOf x = Some (kind so)) items ∧
  (typematch (loc 0) (loc 1) h = Ok (None, h) ∧
   (∀ r h', Union map_entries (loc 0) (loc 1) h = Ok (r, h') → r.2 = None) ∧
   (∀ r h', Intersection map_entries (loc 0) (loc 1) h = Ok (r, h') → r.2 = None) ∧
   (∀ r h', Difference map_entries (loc 0) (loc 1) h = Ok (r, h') → r.2 = None) ∧
   (∀ r h', SymmetricDifference map_entries (loc 0) (loc 1) h = Ok (r, h') → r.2 = None) ∧
   (∀ r h', Merge map_entries (loc 0) (loc 1) h = Ok (r, h') → r = None) ∧
   (∀ r h', Separate map_entries (loc 0) (loc 1) h = Ok (r, h') → r = None) ∧
   (∀ r h', IsEqual map_entries (loc 0) (loc 1) h = Ok (r, h') → r.2 = None) ∧
   (∀ r h', IsSubset map_entries (loc 0) (loc 1) h = Ok (r, h') → r.2 = None) ∧
   (∀ r h', IsSuperset map_entries (loc 0) (loc 1) h = Ok (r, h') → r.2 = None) ∧
   typecheck (loc 0) items h = Ok (None, h) ∧
   KindOf (VStruct "Point" [VInt 1; VInt 2]) = KindOf (VStruct "User" [VString "ann"]) ∧
   (kind so = reflect.Struct →
    typecheck (loc 0) [VStruct "Point" [VInt 1; VInt 2]; VStruct "User" [VString "ann"]] h = Ok (None, h))).
Proof.
  intros so to h items.
  assert (h !! 0 = Some so) as H1 by reflexivity.
  assert (h !! 1 = Some to) as H2 by reflexivity.
  assert (kind so = kind to) as H3 by reflexivity.
  assert (Forall (λ x, KindOf x = Some (kind so)) items) as H4
    by (repeat constructor).
  do 4 (split; [assumption|]).
  exact (kinds_are_compared_by_tag_only map_entries h 0 1 so to items "Point" [VInt 1; VInt 2] "User" [VString "ann"]
           H1 H2 H3 H4).
Defined.


(** ** The further properties at concrete inputs *)

Lemma sets_of_other_kinds_stay_empty_witness :
  let o := mkSet map_make reflect.Int in
  let h := [o] in
  (∀ M : gomap, map_entries M ≡ₚ map_entries M) ∧
  reachable map_entries h ∧
  h !! 0 = Some o ∧
  kind o ≠ reflect.Slice ∧
  (m o = map_make ∧
   Size (loc 0) h = Ok (0, h) ∧
   IsEmpty (loc 0) h = Ok (true, h) ∧
   List map_entries (loc 0) h = Ok ([], h) ∧
   StringSlice map_entries (loc 0) h = Ok ([], h) ∧
   IntSlice map_entries (loc 0) h = Ok ([], h)).
Proof.
  intros o h.
  assert (reachable map_entries h) as H1 by exact reachable_int_set.
  assert (h !! 0 = Some o) as H2 by reflexivity.
  assert (kind o ≠ reflect.Slice) as H3 by discriminate.
  split; [exact entries_perm|]. do 3 (split; [assumption|]).
  exact (sets_of_other_kinds_stay_empty map_entries entries_perm h 0 o
           H1 H2 H3).
Defined.

Lemma no_element_has_the_kind_of_its_set_witness :
  let o := mkSet (mkMap {[VInt 1; VString "go"]} {[+ VFloat64 F64NaN +]})
                 reflect.Slice in
  let h := [o] in
  (∀ M : gomap, map_entries M ≡ₚ map_entries M) ∧
  reachable map_entries h ∧
  h !! 0 = Some o ∧
  entry (VInt 1) (m o) ∧
  (kind o = reflect.Slice ∧ hashable (VInt 1) = true ∧ KindOf (VInt 1) ≠ Some (kind o)).
Proof.
  intros o h.
  assert (reachable map_entries h) as H1 by exact reachable_one_set.
  assert (h !! 0 = Some o) as H2 by reflexivity.
  assert (entry (VInt 1) (m o)) as H3 by (left; simpl; set_solver).
  split; [exact entries_perm|]. do 3 (split; [assumption|]).
  exact (no_element_has_the_kind_of_its_set map_entries entries_perm h 0 o (VInt 1)
           H1 H2 H3).
Defined.

Lemma kind_never_changes_witness :
  let o := mkSet (mkMap {[VInt 1]} {[+ VFloat64 F64NaN +]}) reflect.Slice in
  let cs := [CallAdd (loc 0) [VInt 5]; CallClear (loc 0)] in
  let h := [o] in
  let h' := [mkSet map_make reflect.Slice] in
  for_range cs (exec map_entries) h = Ok (tt, h') ∧
  h !! 0 = Some o ∧
  (∃ o', h' !! 0 = Some o' ∧ kind o' = kind o).
Proof.
  intros o cs h h'.
  assert (for_range cs (exec map_entries) h = Ok (tt, h')) as H1
    by (vm_compute; reflexivity).
  assert (h !! 0 = Some o) as H2 by reflexivity.
  do 2 (split; [assumption|]).
  exact (kind_never_changes map_entries cs h h' 0 o H1 H2).
Defined.

Lemma writes_touch_only_their_receiver_witness :
  let so := mkSet (mkMap {[VInt 1; VInt 2]} {[+ VFloat64 F64NaN +]})
                  reflect.Slice in
  let to := mkSet (mkMap {[VInt 2; VInt 3]} ∅) reflect.Slice in
  let mus := [MutAdd [VInt 7]; MutRemove [VInt 1]; MutMerge (loc 1)] in
  let h := [so; to] in
  let h' := [mkSet (mkMap {[VInt 2; VInt 3; VInt 7]} {[+ VFloat64 F64NaN +]}) reflect.Slice; to] in
  for_range mus (mutate map_entries (loc 0)) h = Ok (tt, h') ∧
  (length h' = length h ∧ ∀ a, a ≠ 0 → h' !! a = h !! a).
Proof.
  intros so to mus h h'.
  assert (for_range mus (mutate map_entries (loc 0)) h = Ok (tt, h')) as H1
    by (vm_compute; reflexivity).
  do 1 (split; [assumption|]).
  exact (writes_touch_only_their_receiver map_entries 0 mus h h' H1).
Defined.

Lemma set_algebra_builds_new_sets_witness :
  let so := mkSet (mkMap {[VInt 1; VInt 2]} {[+ VFloat64 F64NaN +]})
                  reflect.Slice in
  let to := mkSet (mkMap {[VInt 2; VInt 3]} ∅) reflect.Slice in
  let h := [so; to] in
  (∀ M : gomap, map_entries M ≡ₚ map_entries M) ∧
  reachable map_entries h ∧
  h !! 0 = Some so ∧
  h !! 1 = Some to ∧
  kind so = kind to ∧
  (Union map_entries (loc 0) (loc 1) h =
     Ok ((loc (length h), None),
         h ++ [mkSet (mkMap (keys (m so) ∪ keys (m to))
                            (loose (m so) ⊎ loose (m to))) (kind so)]) ∧
   Intersection map_entries (loc 0) (loc 1) h =
     Ok ((loc (length h), None),
         h ++ [mkSet (mkMap (keys (m so) ∩ keys (m to)) ∅) (kind so)]) ∧
   Difference map_entries (loc 0) (loc 1) h =
     Ok ((loc (length h), None),
         h ++ [mkSet (mkMap (keys (m so) ∖ keys (m to)) (loose (m so)))
                     (kind so)]) ∧
   Difference map_entries (loc 0) (loc 0) h =
     Ok ((loc (length h), None),
         h ++ [mkSet (mkMap ∅ (loose (m so))) (kind so)]) ∧
   Intersection map_entries (loc 0) (loc 0) h =
     Ok ((loc (length h), None),
         h ++ [mkSet (mkMap (keys (m so)) ∅) (kind so)])).
Proof.
  intros so to h.
  assert (reachable map_entries h) as H1 by exact reachable_two_sets.
  assert (h !! 0 = Some so) as H2 by reflexivity.
  assert (h !! 1 = Some to) as H3 by reflexivity.
  assert (kind so = kind to) as H4 by reflexivity.
  split; [exact entries_perm|]. do 4 (split; [assumption|]).
  exact (set_algebra_builds_new_sets map_entries entries_perm h 0 1 so to
           H1 H2 H3 H4).
Defined.

Lemma Merge_and_Separate_rewrite_the_receiver_witness :
  let so := mkSet (mkMap {[VInt 1; VInt 2]} {[+ VFloat64 F64NaN +]})
                  reflect.Slice in
  let to := mkSet (mkMap {[VInt 2; VInt 3]} ∅) reflect.Slice in
  let h := [so; to] in
  (∀ M : gomap, map_entries M ≡ₚ map_entries M) ∧
  reachable map_entries h ∧
  h !! 0 = Some so ∧
  h !! 1 = Some to ∧
  kind so = kind to ∧
  (Merge map_entries (loc 0) (loc 1) h =
     Ok (None, <[0 := mkSet (mkMap (keys (m so) ∪ keys (m to))
                                   (loose (m so) ⊎ loose (m to))) (kind so)]> h) ∧
   Separate map_entries (loc 0) (loc 1) h =
     Ok (None, <[0 := mkSet (mkMap (keys (m so) ∖ keys (m to)) (loose (m so)))
                            (kind so)]> h) ∧
   Separate map_entries (loc 0) (loc 0) h =
     Ok (None, <[0 := mkSet (mkMap ∅ (loose (m so))) (kind so)]> h) ∧
   Merge map_entries (loc 0) (loc 0) h =
     Ok (None, <[0 := mkSet (mkMap (keys (m so)) (loose (m so) ⊎ loose (m so)))
                            (kind so)]> h)).
Proof.
  intros so to h.
  assert (reachable map_entries h) as H1 by exact reachable_two_sets.
  assert (h !! 0 = Some so) as H2 by reflexivity.
  assert (h !! 1 = Some to) as H3 by reflexivity.
  assert (kind so = kind to) as H4 by reflexivity.
  split; [exact entries_perm|]. do 4 (split; [assumption|]).
  exact (Merge_and_Separate_rewrite_the_receiver map_entries entries_perm h 0 1 so to
           H1 H2 H3 H4).
Defined.

Lemma IsEqual_decides_equality_witness :
  let so := mkSet (mkMap {[VInt 1; VInt 2]} {[+ VFloat64 F64NaN +]})
                  reflect.Slice in
  let to := mkSet (mkMap {[VInt 2; VInt 3]} ∅) reflect.Slice in
  let h := [so; to] in
  (∀ M : gomap, map_entries M ≡ₚ map_entries M) ∧
  reachable map_entries h ∧
  h !! 0 = Some so ∧
  h !! 1 = Some to ∧
  kind so = kind to ∧
  (IsEqual map_entries (loc 0) (loc 1) h =
     Ok ((bool_decide (keys (m so) = keys (m to) ∧
                       selfequal (m so) ∧ selfequal (m to)), None),
         if decide (map_len (m so) = map_len (m to))
         then h ++ [mkSet (mkMap (keys (m so) ∪ keys (m to))
                                 (loose (m so) ⊎ loose (m to))) (kind so)]
         else h) ∧
   IsEqual map_entries (loc 0) (loc 0) h =
     Ok ((bool_decide (selfequal (m so)), None),
         h ++ [mkSet (mkMap (keys (m so)) (loose (m so) ⊎ loose (m so)))
                     (kind so)])).
Proof.
  intros so to h.
  assert (reachable map_entries h) as H1 by exact reachable_two_sets.
  assert (h !! 0 = Some so) as H2 by reflexivity.
  assert (h !! 1 = Some to) as H3 by reflexivity.
  assert (kind so = kind to) as H4 by reflexivity.
  split; [exact entries_perm|]. do 4 (split; [assumption|]).
  exact (IsEqual_decides_equality map_entries entries_perm h 0 1 so to
           H1 H2 H3 H4).
Defined.

Lemma IsEqual_is_IsSubset_both_ways_witness :
  let so := mkSet (mkMap {[VInt 1; VInt 2]} {[+ VFloat64 F64NaN +]})
                  reflect.Slice in
  let to := mkSet (mkMap {[VInt 2; VInt 3]} ∅) reflect.Slice in
  let h := [so; to] in
  (∀ M : gomap, map_entries M ≡ₚ map_entries M) ∧
  reachable map_entries h ∧
  h !! 0 = Some so ∧
  h !! 1 = Some to ∧
  kind so = kind to ∧
  (IsSuperset map_entries (loc 0) (loc 1) h =
     Ok ((bool_decide (selfequal (m so) ∧ keys (m so) ⊆ keys (m to)), None), h) ∧
   ∃ sub sup eq,
     result (IsSubset map_entries (loc 0) (loc 1) h) = Some (sub, None) ∧
     result (IsSuperset map_entries (loc 0) (loc 1) h) = Some (sup, None) ∧
     result (IsEqual map_entries (loc 0) (loc 1) h) = Some (eq, None) ∧
     eq = sub && sup).
Proof.
  intros so to h.
  assert (reachable map_entries h) as H1 by exact reachable_two_sets.
  assert (h !! 0 = Some so) as H2 by reflexivity.
  assert (h !! 1 = Some to) as H3 by reflexivity.
  assert (kind so = kind to) as H4 by reflexivity.
  split; [exact entries_perm|]. do 4 (split; [assumption|]).
  exact (IsEqual_is_IsSubset_both_ways map_entries entries_perm h 0 1 so to
           H1 H2 H3 H4).
Defined.

Lemma sizes_of_Union_and_Intersection_add_up_witness :
  let so := mkSet (mkMap {[VInt 1; VInt 2]} {[+ VFloat64 F64NaN +]})
                  reflect.Slice in
  let to := mkSet (mkMap {[VInt 2; VInt 3]} ∅) reflect.Slice in
  let h := [so; to] in
  (∀ M : gomap, map_entries M ≡ₚ map_entries M) ∧
  reachable map_entries h ∧
  h !! 0 = Some so ∧
  h !! 1 = Some to ∧
  kind so = kind to ∧
  (∃ nu ni,
     result (sizes_of_Union_and_Intersection map_entries (loc 0) (loc 1) h) =
       Some (nu, ni, map_len (m so), map_len (m to)) ∧
     nu + ni = map_len (m so) + map_len (m to)).
Proof.
  intros so to h.
  assert (reachable map_entries h) as H1 by exact reachable_two_sets.
  assert (h !! 0 = Some so) as H2 by reflexivity.
  assert (h !! 1 = Some to) as H3 by reflexivity.
  assert (kind so = kind to) as H4 by reflexivity.
  split; [exact entries_perm|]. do 4 (split; [assumption|]).
  exact (sizes_of_Union_and_Intersection_add_up map_entries entries_perm h 0 1 so to
           H1 H2 H3 H4).
Defined.

Lemma Union_commutes_witness :
  let so := mkSet (mkMap {[VInt 1; VInt 2]} {[+ VFloat64 F64NaN +]})
                  reflect.Slice in
  let to := mkSet (mkMap {[VInt 2; VInt 3]} ∅) reflect.Slice in
  let h := [so; to] in
  (∀ M : gomap, map_entries M ≡ₚ map_entries M) ∧
  reachable map_entries h ∧
  h !! 0 = Some so ∧
  h !! 1 = Some to ∧
  kind so = kind to ∧
  ((∃ uo, Union map_entries (loc 0) (loc 1) h = Ok ((loc (length h), None), h ++ [uo]) ∧
          Union map_entries (loc 1) (loc 0) h = Ok ((loc (length h), None), h ++ [uo])) ∧
   result (Union_both_ways map_entries (loc 0) (loc 1) h) =
     Some (bool_decide (selfequal (m so) ∧ selfequal (m to)), None)).
Proof.
  intros so to h.
  assert (reachable map_entries h) as H1 by exact reachable_two_sets.
  assert (h !! 0 = Some so) as H2 by reflexivity.
  assert (h !! 1 = Some to) as H3 by reflexivity.
  assert (kind so = kind to) as H4 by reflexivity.
  split; [exact entries_perm|]. do 4 (split; [assumption|]).
  exact (Union_commutes map_entries entries_perm h 0 1 so to H1 H2 H3 H4).
Defined.

Lemma Difference_of_self_is_empty_witness :
  let o := mkSet (mkMap {[VInt 1; VString "go"]} {[+ VFloat64 F64NaN +]})
                 reflect.Slice in
  let h := [o] in
  (∀ M : gomap, map_entries M ≡ₚ map_entries M) ∧
  reachable map_entries h ∧
  h !! 0 = Some o ∧
  (result (Difference_of_self map_entries (loc 0) h) =
     Some (bool_decide (selfequal (m o)))).
Proof.
  intros o h.
  assert (reachable map_entries h) as H1 by exact reachable_one_set.
  assert (h !! 0 = Some o) as H2 by reflexivity.
  split; [exact entries_perm|]. do 2 (split; [assumption|]).
  exact (Difference_of_self_is_empty map_entries entries_perm h 0 o H1 H2).
Defined.

Lemma Intersection_with_Union_is_the_set_witness :
  let so := mkSet (mkMap {[VInt 1; VInt 2]} {[+ VFloat64 F64NaN +]})
                  reflect.Slice in
  let to := mkSet (mkMap {[VInt 2; VInt 3]} ∅) reflect.Slice in
  let h := [so; to] in
  (∀ M : gomap, map_entries M ≡ₚ map_entries M) ∧
  reachable map_entries h ∧
  h !! 0 = Some so ∧
  h !! 1 = Some to ∧
  kind so = kind to ∧
  (result (Intersection_with_Union map_entries (loc 0) (loc 1) h) =
     Some (bool_decide (selfequal (m so)), None)).
Proof.
  intros so to h.
  assert (reachable map_entries h) as H1 by exact reachable_two_sets.
  assert (h !! 0 = Some so) as H2 by reflexivity.
  assert (h !! 1 = Some to) as H3 by reflexivity.
  assert (kind so = kind to) as H4 by reflexivity.
  split; [exact entries_perm|]. do 4 (split; [assumption|]).
  exact (Intersection_with_Union_is_the_set map_entries entries_perm h 0 1 so to
           H1 H2 H3 H4).
Defined.

Lemma Merge_and_Separate_take_effect_witness :
  let so := mkSet (mkMap {[VInt 1; VInt 2]} {[+ VFloat64 F64NaN +]})
                  reflect.Slice in
  let to := mkSet (mkMap {[VInt 2; VInt 3]} ∅) reflect.Slice in
  let h := [so; to] in
  (∀ M : gomap, map_entries M ≡ₚ map_entries M) ∧
  reachable map_entries h ∧
  h !! 0 = Some so ∧
  h !! 1 = Some to ∧
  kind so = kind to ∧
  (result (Merge_then_IsSubset map_entries (loc 0) (loc 1) h) =
     Some (bool_decide (selfequal (m to)), None) ∧
   result (Separate_then_Intersection map_entries (loc 0) (loc 1) h) = Some true).
Proof.
  intros so to h.
  assert (reachable map_entries h) as H1 by exact reachable_two_sets.
  assert (h !! 0 = Some so) as H2 by reflexivity.
  assert (h !! 1 = Some to) as H3 by reflexivity.
  assert (kind so = kind to) as H4 by reflexivity.
  split; [exact entries_perm|]. do 4 (split; [assumption|]).
  exact (Merge_and_Separate_take_effect map_entries entries_perm h 0 1 so to
           H1 H2 H3 H4).
Defined.

Lemma Slice_set_admits_any_hashable_item_witness :
  let o := mkSet (mkMap {[VInt 1; VString "go"]} {[+ VFloat64 F64NaN +]})
                 reflect.Slice in
  let h := [o] in
  let items := [VInt 5; VFloat64 F64NaN] in
  h !! 0 = Some o ∧
  kind o = reflect.Slice ∧
  items ≠ [] ∧
  forallb hashable items = true ∧
  (∃ h1 o1,
     Add (loc 0) items h = Ok (None, h1) ∧
     h1 !! 0 = Some o1 ∧ kind o1 = reflect.Slice ∧
     keys (m o1) = found items ∪ keys (m o) ∧
     loose (m o1) = unfound items ⊎ loose (m o) ∧
     (∀ x, entry x (m o1) ↔ x ∈ items ∨ entry x (m o)) ∧
     Has (loc 0) items h1 = Ok ((forallb reflexive items, None), h1) ∧
     ∀ x, x ∈ items → Has (loc 0) [x] h1 = Ok ((reflexive x, None), h1)).
Proof.
  intros o h items.
  assert (h !! 0 = Some o) as H1 by reflexivity.
  assert (kind o = reflect.Slice) as H2 by reflexivity.
  assert (items ≠ []) as H3 by discriminate.
  assert (forallb hashable items = true) as H4 by reflexivity.
  do 4 (split; [assumption|]).
  exact (Slice_set_admits_any_hashable_item h 0 o items H1 H2 H3 H4).
Defined.

Lemma Remove_takes_the_items_out_witness :
  let o := mkSet (mkMap {[VInt 1; VString "go"]} {[+ VFloat64 F64NaN +]})
                 reflect.Slice in
  let h := [o] in
  let items := [VInt 1; VFloat64 F64NaN] in
  h !! 0 = Some o ∧
  kind o = reflect.Slice ∧
  items ≠ [] ∧
  forallb hashable items = true ∧
  (∃ h1,
     Remove (loc 0) items h = Ok (None, h1) ∧
     h1 !! 0 =
       Some (mkSet (mkMap (keys (m o) ∖ found items) (loose (m o))) (kind o)) ∧
     (∀ x, x ∈ items → Has (loc 0) [x] h1 = Ok ((false, None), h1)) ∧
     ((∀ x, x ∈ items → x ∉ keys (m o)) → h1 = h) ∧
     ((∀ x, x ∈ items → x ∉ keys (m o)) → forallb reflexive items = true →
      ∃ h2, Add (loc 0) items h = Ok (None, h2) ∧
            Remove (loc 0) items h2 = Ok (None, h))).
Proof.
  intros o h items.
  assert (h !! 0 = Some o) as H1 by reflexivity.
  assert (kind o = reflect.Slice) as H2 by reflexivity.
  assert (items ≠ []) as H3 by discriminate.
  assert (forallb hashable items = true) as H4 by reflexivity.
  do 4 (split; [assumption|]).
  exact (Remove_takes_the_items_out h 0 o items H1 H2 H3 H4).
Defined.

Lemma Clear_empties_the_set_witness :
  let o := mkSet (mkMap {[VInt 1; VString "go"]} {[+ VFloat64 F64NaN +]})
                 reflect.Slice in
  let h := [o] in
  (∀ M : gomap, map_entries M ≡ₚ map_entries M) ∧
  h !! 0 = Some o ∧
  (∃ h1,
     Clear (loc 0) h = Ok (tt, h1) ∧
     h1 = <[0 := mkSet map_make (kind o)]> h ∧
     Size (loc 0) h1 = Ok (0, h1) ∧
     IsEmpty (loc 0) h1 = Ok (true, h1) ∧
     List map_entries (loc 0) h1 = Ok ([], h1)).
Proof.
  intros o h.
  assert (h !! 0 = Some o) as H1 by reflexivity.
  split; [exact entries_perm|]. do 1 (split; [assumption|]).
  exact (Clear_empties_the_set map_entries entries_perm h 0 o H1).
Defined.

Lemma typecheck_accepts_exactly_the_kind_witness :
  let o := mkSet map_make reflect.Int in
  let h := [o] in
  let items := [VInt 1; VString "a"; VInt 2] in
  h !! 0 = Some o ∧
  ((typecheck (loc 0) items h = Ok (None, h) ↔
    Forall (λ x, KindOf x = Some (kind o)) items) ∧
   (∀ pre x post k,
      items = pre ++ x :: post →
      Forall (λ y, KindOf y = Some (kind o)) pre →
      KindOf x = Some k → k ≠ kind o →
      typecheck (loc 0) items h = Ok (Some (TypeViolation k (kind o)), h)) ∧
   (∀ pre x post,
      items = pre ++ x :: post →
      Forall (λ y, KindOf y = Some (kind o)) pre →
      KindOf x = None →
      typecheck (loc 0) items h = Panic)).
Proof.
  intros o h items.
  assert (h !! 0 = Some o) as H1 by reflexivity.
  do 1 (split; [assumption|]).
  exact (typecheck_accepts_exactly_the_kind h 0 o items H1).
Defined.

Lemma typed_views_select_by_type_witness :
  let o := mkSet (mkMap {[VInt 1; VString "go"]} {[+ VFloat64 F64NaN +]})
                 reflect.Slice in
  let h := [o] in
  (∀ M : gomap, map_entries M ≡ₚ map_entries M) ∧
  h !! 0 = Some o ∧
  (∃ ss ns,
     StringSlice map_entries (loc 0) h = Ok (ss, h) ∧
     IntSlice map_entries (loc 0) h = Ok (ns, h) ∧
     (reachable map_entries h → NoDup ss ∧ NoDup ns) ∧
     (∀ v, v ∈ ss ↔ entry (VString v) (m o)) ∧
     (∀ n, n ∈ ns ↔ entry (VInt n) (m o)) ∧
     length ss + length ns ≤ map_len (m o)).
Proof.
  intros o h.
  assert (h !! 0 = Some o) as H1 by reflexivity.
  split; [exact entries_perm|]. do 1 (split; [assumption|]).
  exact (typed_views_select_by_type map_entries entries_perm h 0 o H1).
Defined.

Lemma Slice_set_panics_on_unhashable_item_witness :
  let o := mkSet (mkMap {[VInt 1; VString "go"]} {[+ VFloat64 F64NaN +]})
                 reflect.Slice in
  let h := [o] in
  let x := VSlice [VInt 2] in
  let items := [VInt 1; x] in
  h !! 0 = Some o ∧
  kind o = reflect.Slice ∧
  x ∈ items ∧
  hashable x = false ∧
  (Add (loc 0) items h = Panic ∧
   Remove (loc 0) items h = Panic ∧
   Has (loc 0) [x] h = Panic ∧
   New reflect.Slice items h = Panic).
Proof.
  intros o h x items.
  assert (h !! 0 = Some o) as H1 by reflexivity.
  assert (kind o = reflect.Slice) as H2 by reflexivity.
  assert (x ∈ items) as H3 by (unfold items; set_solver).
  assert (hashable x = false) as H4 by reflexivity.
  do 4 (split; [assumption|]).
  exact (Slice_set_panics_on_unhashable_item h 0 o items x H1 H2 H3 H4).
Defined.

Lemma Has_is_conjunctive_in_a_Slice_set_witness :
  let o := mkSet (mkMap {[VInt 1; VString "go"]} {[+ VFloat64 F64NaN +]})
                 reflect.Slice in
  let h := [o] in
  let items := [VInt 1; VFloat64 F64NaN] in
  h !! 0 = Some o ∧
  kind o = reflect.Slice ∧
  items ≠ [] ∧
  forallb hashable items = true ∧
  (∃ b, Has (loc 0) items h = Ok ((b, None), h) ∧
        (b = true ↔ ∀ x, x ∈ items → reflexive x = true ∧ x ∈ keys (m o)) ∧
        (forallb reflexive items = false → b = false)).
Proof.
  intros o h items.
  assert (h !! 0 = Some o) as H1 by reflexivity.
  assert (kind o = reflect.Slice) as H2 by reflexivity.
  assert (items ≠ []) as H3 by discriminate.
  assert (forallb hashable items = true) as H4 by reflexivity.
  do 4 (split; [assumption|]).
  exact (Has_is_conjunctive_in_a_Slice_set h 0 o items H1 H2 H3 H4).
Defined.

Lemma Add_grows_Size_by_a_new_item_witness :
  let o := mkSet (mkMap {[VInt 1; VString "go"]} {[+ VFloat64 F64NaN +]})
                 reflect.Slice in
  let h := [o] in
  let x := VFloat64 F64NaN in
  h !! 0 = Some o ∧
  kind o = reflect.Slice ∧
  hashable x = true ∧
  (∃ b h1,
     Has (loc 0) [x] h = Ok ((b, None), h) ∧
     (b = true ↔ reflexive x = true ∧ x ∈ keys (m o)) ∧
     Add (loc 0) [x] h = Ok (None, h1) ∧
     Size (loc 0) h1 =
       Ok ((if b then map_len (m o) else S (map_len (m o))), h1)).
Proof.
  intros o h x.
  assert (h !! 0 = Some o) as H1 by reflexivity.
  assert (kind o = reflect.Slice) as H2 by reflexivity.
  assert (hashable x = true) as H3 by reflexivity.
  do 3 (split; [assumption|]).
  exact (Add_grows_Size_by_a_new_item h 0 o x H1 H2 H3).
Defined.
